(** * Blockchain-Query-API: a shallow embedding of [blockchain.py] and of the
    request validation of [server.py], with the properties of the block
    decoder, the Merkle-root recursion, the main-chain resolver and the query
    accessors.

    Conventions.
    - Python [str] values that hold hex text are [string]; raw byte strings
      are [list byte].
    - Python integers are [Z].
    - The module-level dictionaries are [gmap string _].
    - A Python call either returns, raises, or recurses/loops without end:
      these are the three constructors of [result]. *)

From Stdlib Require Import ZArith NArith Strings.Byte Ascii String Floats.
From stdpp Require Import gmap strings list fin_maps sorting.
From Equations Require Import Equations.

Local Open Scope string_scope.
Local Open Scope list_scope.

#[local] Set Warnings "-clear-no-such-hyp".

(** ** Outcomes of Python calls *)

Inductive exn : Type :=
| AssertionError
| StructError
| TypeError
| ValueError
| KeyError
| IndexError.

Inductive result (A : Type) : Type :=
| Ret (a : A)
| Raise (e : exn)
| Diverge.

Arguments Ret {A} a.
Arguments Raise {A} e.
Arguments Diverge {A}.

#[global] Instance result_ret : MRet result := fun A a => Ret a.

#[global] Instance result_bind : MBind result := fun A B f m =>
  match m with
  | Ret a => f a
  | Raise e => Raise e
  | Diverge => Diverge
  end.

(** [d[k]] on a dictionary: [KeyError] when the key is absent. *)
Definition getitem {V : Type} (d : gmap string V) (k : string) : result V :=
  match d !! k with
  | Some v => Ret v
  | None => Raise KeyError
  end.

(** [l[i]] on a list with a non-negative index: [IndexError] out of range. *)
Definition index {A : Type} (l : list A) (i : nat) : result A :=
  match l !! i with
  | Some x => Ret x
  | None => Raise IndexError
  end.

(** [assert c]. *)
Definition assert (c : bool) : result unit :=
  if c then Ret tt else Raise AssertionError.

(** ** Bytes, slices and hex text *)

Definition byte_to_Z (b : byte) : Z := Z.of_N (Byte.to_N b).

Definition Z_to_byte (z : Z) : byte :=
  match Byte.of_N (Z.to_N (z mod 256)) with
  | Some b => b
  | None => x00
  end.

(** [block[a:b]] for offsets [0 <= a]: Python clips the slice at the end of
    the buffer and never raises. *)
Definition slice (block : list byte) (a b : Z) : list byte :=
  take (Z.to_nat (b - a)) (drop (Z.to_nat a) block).

(** Little-endian value of a byte string, as [struct.unpack("<...")] and
    [int(x.decode('hex')[::-1].encode('hex_codec'), 16)] compute it. *)
Fixpoint le_to_Z (bs : list byte) : Z :=
  match bs with
  | [] => 0
  | b :: r => (byte_to_Z b + 256 * le_to_Z r)%Z
  end.

(** [struct.unpack(fmt, s)[0]] for the formats "<B", "<H", "<I", "<Q", whose
    sizes are 1, 2, 4 and 8: [struct.error] unless [s] has exactly the size of
    the format. *)
Definition struct_unpack (size : nat) (s : list byte) : result Z :=
  if decide (length s = size) then Ret (le_to_Z s) else Raise StructError.

Definition hex_digit (n : N) : ascii :=
  match n with
  | 0%N => "0" | 1%N => "1" | 2%N => "2" | 3%N => "3" | 4%N => "4"
  | 5%N => "5" | 6%N => "6" | 7%N => "7" | 8%N => "8" | 9%N => "9"
  | 10%N => "a" | 11%N => "b" | 12%N => "c" | 13%N => "d" | 14%N => "e"
  | _ => "f"
  end%char.

(** Value of one hex digit; both cases are digits, as for [binascii]. *)
Definition hex_value (c : ascii) : option N :=
  let n := N_of_ascii c in
  if ((48 <=? n) && (n <=? 57))%N then Some (n - 48)%N
  else if ((97 <=? n) && (n <=? 102))%N then Some (n - 87)%N
  else if ((65 <=? n) && (n <=? 70))%N then Some (n - 55)%N
  else None.

(** [binascii.hexlify(bytes)] and [bytes.encode('hex_codec')]: two lowercase
    digits per byte. *)
Fixpoint hexlify (bs : list byte) : string :=
  match bs with
  | [] => ""
  | b :: r =>
      String (hex_digit (Byte.to_N b / 16)%N)
        (String (hex_digit (Byte.to_N b mod 16)%N) (hexlify r))
  end.

(** [binascii.unhexlify]: [None] for an odd length or a non-hex digit. *)
Fixpoint unhexlify (s : string) : option (list byte) :=
  match s with
  | "" => Some []
  | String c1 (String c2 r) =>
      match hex_value c1, hex_value c2, unhexlify r with
      | Some h, Some l, Some bs =>
          match Byte.of_N (16 * h + l)%N with
          | Some b => Some (b :: bs)
          | None => None
          end
      | _, _, _ => None
      end
  | String _ "" => None
  end.

(** [s.decode('hex')]: [TypeError] on text that is not hex. *)
Definition decode_hex (s : string) : result (list byte) :=
  match unhexlify s with
  | Some bs => Ret bs
  | None => Raise TypeError
  end.

Definition byte_to_hex_string_little (bytes : list byte) : string :=
  hexlify bytes.

Definition byte_to_hex_string_big (bytes : list byte) : string :=
  hexlify (rev bytes).

(** [s.decode('hex')[::-1].encode('hex_codec')]: the byte-reversed hex text,
    used to pass between the internal and the display order. *)
Definition reverse_hex (s : string) : result string :=
  bs ← decode_hex s; Ret (hexlify (rev bs)).

(** [int(s.decode('hex')[::-1].encode('hex_codec'), 16)]: the text produced by
    [encode] holds lowercase hex digits only, so [int] reads its positional
    value, and raises [ValueError] on the empty text. *)
Definition hex_le_int (s : string) : result Z :=
  bs ← decode_hex s;
  match bs with
  | [] => Raise ValueError
  | _ => Ret (le_to_Z bs)
  end.

(** ** SHA-256 (FIPS 180-4), the function behind [hashlib.sha256(x).digest()] *)

Module SHA256.
Local Open Scope Z_scope.

Definition w32 (x : Z) : Z := Z.land x 0xffffffff.
Definition add32 (x y : Z) : Z := w32 (x + y).
Definition rotr (n x : Z) : Z :=
  Z.lor (Z.shiftr x n) (w32 (Z.shiftl x (32 - n))).
Definition shr (n x : Z) : Z := Z.shiftr x n.
Definition not32 (x : Z) : Z := Z.lxor x 0xffffffff.

Definition Ch (x y z : Z) : Z := Z.lxor (Z.land x y) (Z.land (not32 x) z).
Definition Maj (x y z : Z) : Z :=
  Z.lxor (Z.lxor (Z.land x y) (Z.land x z)) (Z.land y z).
Definition bsig0 (x : Z) : Z := Z.lxor (Z.lxor (rotr 2 x) (rotr 13 x)) (rotr 22 x).
Definition bsig1 (x : Z) : Z := Z.lxor (Z.lxor (rotr 6 x) (rotr 11 x)) (rotr 25 x).
Definition ssig0 (x : Z) : Z := Z.lxor (Z.lxor (rotr 7 x) (rotr 18 x)) (shr 3 x).
Definition ssig1 (x : Z) : Z := Z.lxor (Z.lxor (rotr 17 x) (rotr 19 x)) (shr 10 x).

(** Section 4.2.2 and 5.3.3 define the constants by roots of primes: the
    round constants are the first 32 bits of the fractional parts of the cube
    roots of the first 64 primes, the initial hash value those of the square
    roots of the first 8 primes. *)
Definition is_prime (n : Z) : bool :=
  forallb (fun d => negb (n mod d =? 0)) (seqZ 2 (n - 2)).

Definition primes : list Z := filter (fun n => is_prime n = true) (seqZ 2 310).

(** The greatest [r] below [2 ^ bits] with [r ^ k <= n], one bit after the
    other from the highest. *)
Fixpoint iroot (k n : Z) (bits : nat) (r : Z) : Z :=
  match bits with
  | O => r
  | S b =>
      let r' := r + 2 ^ Z.of_nat b in
      iroot k n b (if r' ^ k <=? n then r' else r)
  end.

Definition frac_root (k : Z) (p : Z) : Z :=
  w32 (iroot k (p * 2 ^ (32 * k)) 40 0).

Definition K : list Z := Eval vm_compute in map (frac_root 3) primes.

Definition H0 : list Z := Eval vm_compute in map (frac_root 2) (take 8 primes).

(** Big-endian value of a byte string and its inverse on [n] bytes. *)
Definition be_to_Z (bs : list byte) : Z :=
  fold_left (fun acc b => acc * 256 + byte_to_Z b) bs 0.

Fixpoint Z_to_be (n : nat) (z : Z) : list byte :=
  match n with
  | O => []
  | S n' => Z_to_be n' (z / 256) ++ [Z_to_byte z]
  end.

(** Section 5.1.1: the message, the byte 0x80, zero bytes up to 56 modulo
    64, and the bit length on 8 bytes. *)
Definition pad (msg : list byte) : list byte :=
  let len := Z.of_nat (length msg) in
  let zeros := Z.to_nat ((55 - len) mod 64) in
  msg ++ [x80] ++ replicate zeros x00 ++ Z_to_be 8 (len * 8).

(** The buffer cut into pieces of [n] bytes; [k] bounds the number of
    pieces. *)
Fixpoint chunks (k n : nat) (l : list byte) : list (list byte) :=
  match k with
  | O => []
  | S k' =>
      match l with
      | [] => []
      | _ => take n l :: chunks k' n (drop n l)
      end
  end.

(** Section 6.2.2, step 1: the message schedule; [ws] holds the words
    computed so far. *)
Fixpoint schedule (k : nat) (ws : list Z) : list Z :=
  match k with
  | O => ws
  | S k' =>
      let t := length ws in
      let at_ (i : nat) := nth (t - i) ws 0 in
      schedule k'
        (ws ++ [add32 (add32 (ssig1 (at_ 2%nat)) (at_ 7%nat))
                      (add32 (ssig0 (at_ 15%nat)) (at_ 16%nat))])
  end.

Record regs : Type := Regs { ra : Z; rb : Z; rc : Z; rd : Z;
                             re : Z; rf : Z; rg : Z; rh : Z }.

(** Section 6.2.2, step 3: one round. *)
Definition round (s : regs) (kw : Z * Z) : regs :=
  let t1 := add32 (add32 (add32 (rh s) (bsig1 (re s)))
                         (add32 (Ch (re s) (rf s) (rg s)) (fst kw))) (snd kw) in
  let t2 := add32 (bsig0 (ra s)) (Maj (ra s) (rb s) (rc s)) in
  Regs (add32 t1 t2) (ra s) (rb s) (rc s) (add32 (rd s) t1) (re s) (rf s) (rg s).

Definition regs_of (h : list Z) : regs :=
  Regs (nth 0 h 0) (nth 1 h 0) (nth 2 h 0) (nth 3 h 0)
       (nth 4 h 0) (nth 5 h 0) (nth 6 h 0) (nth 7 h 0).

Definition compress (h : list Z) (chunk : list byte) : list Z :=
  let w16 := map be_to_Z (chunks 16 4 chunk) in
  let w := schedule 48 w16 in
  let s0 := regs_of h in
  let s := fold_left round (zip K w) s0 in
  [ add32 (ra s0) (ra s); add32 (rb s0) (rb s);
    add32 (rc s0) (rc s); add32 (rd s0) (rd s);
    add32 (re s0) (re s); add32 (rf s0) (rf s);
    add32 (rg s0) (rg s); add32 (rh s0) (rh s) ].

Definition digest (msg : list byte) : list byte :=
  let p := pad msg in
  let h := fold_left compress (chunks (length p) 64 p) H0 in
  concat (map (Z_to_be 4) h).
End SHA256.

(** [hashlib.sha256(x).digest()] *)
Definition sha256 (x : list byte) : list byte := SHA256.digest x.

(** [hashlib.sha256(hashlib.sha256(x).digest()).digest()] *)
Definition double_sha256 (x : list byte) : list byte := sha256 (sha256 x).

(** The bytes of an ASCII text, for test vectors. *)
Definition bytes_of_text (s : string) : list byte :=
  map byte_of_ascii (list_ascii_of_string s).

(** ** Data model *)

Record InputTransaction : Type := {
  itx_prev_tx_hash : string;
  itx_script : string;
  itx_seq_num : string
}.

Record OutputTransaction : Type := {
  otx_satoshi_amount : string;
  otx_script : string
}.

Record Transaction : Type := {
  tx_hash : string;
  tx_version : string;
  input_tx_count : Z;
  input_txs : list InputTransaction;
  output_tx_count : Z;
  output_txs : list OutputTransaction;
  locktime : string
}.

Record Block : Type := {
  version : string;
  previous_block_header_hash : string;
  merkle_root_hash : string;
  start_time : string;
  nBits : string;
  nonce : string;
  main_chain : bool;
  height : Z;
  tx_count : Z;
  txs : list Transaction
}.

(** The module-level variables of [blockchain.py]. *)
Record globals : Type := {
  prev_hash_to_blocks : gmap string (list Block);
  curr_hash_to_prev_hash : gmap string string;
  block_count : Z;
  blockchain_height : Z;
  latest_block_little : string;
  txid_to_prev_hash : gmap string string
}.

Definition source_hash : string :=
  "0000000000000000000000000000000000000000000000000000000000000000".

Definition initial_globals : globals :=
  {| prev_hash_to_blocks := ∅;
     curr_hash_to_prev_hash := ∅;
     block_count := 0;
     blockchain_height := 0;
     latest_block_little := "";
     txid_to_prev_hash := ∅ |}.

(** *** Methods of [InputTransaction], [OutputTransaction], [Transaction] *)


Definition get_satoshi_int (o : OutputTransaction) : result Z :=
  hex_le_int (otx_satoshi_amount o).
Definition otx_get_script_big (o : OutputTransaction) : result string :=
  reverse_hex (otx_script o).

Definition get_hash_little (t : Transaction) : string := tx_hash t.
Definition get_hash_big (t : Transaction) : result string :=
  reverse_hex (tx_hash t).
Definition tx_get_version_int (t : Transaction) : result Z :=
  hex_le_int (tx_version t).
Definition get_locktime_int (t : Transaction) : result Z :=
  hex_le_int (locktime t).

(** *** Methods of [Block] *)


Definition set_main_chain (b : Block) : Block :=
  {| version := version b;
     previous_block_header_hash := previous_block_header_hash b;
     merkle_root_hash := merkle_root_hash b;
     start_time := start_time b;
     nBits := nBits b;
     nonce := nonce b;
     main_chain := true;
     height := height b;
     tx_count := tx_count b;
     txs := txs b |}.

Definition set_height (b : Block) (h : Z) : Block :=
  {| version := version b;
     previous_block_header_hash := previous_block_header_hash b;
     merkle_root_hash := merkle_root_hash b;
     start_time := start_time b;
     nBits := nBits b;
     nonce := nonce b;
     main_chain := main_chain b;
     height := h;
     tx_count := tx_count b;
     txs := txs b |}.

Definition header_hex (b : Block) : string :=
  version b +:+ previous_block_header_hash b +:+ merkle_root_hash b +:+
  start_time b +:+ nBits b +:+ nonce b.

Definition get_curr_hash_little (b : Block) : result string :=
  header_bin ← decode_hex (header_hex b);
  Ret (hexlify (double_sha256 header_bin)).

Definition get_curr_hash_big (b : Block) : result string :=
  header_bin ← decode_hex (header_hex b);
  Ret (hexlify (rev (double_sha256 header_bin))).

(** ** [get_merkle_root] *)

(** The loop [for i in range(0, num_pair)]: [n] pairs remain, [i] is the
    index of the next one. *)
Fixpoint merkle_pairs (child_hashes : list string) (n i : nat)
    (parent_hashes : list string) : result (list string) :=
  match n with
  | O => Ret parent_hashes
  | S n' =>
      child_1 ← index child_hashes (i * 2);
      child_2 ← index child_hashes (i * 2 + 1);
      child_1_bin ← decode_hex child_1;
      child_2_bin ← decode_hex child_2;
      let parent_bin := double_sha256 (child_1_bin ++ child_2_bin) in
      let parent := hexlify parent_bin in
      merkle_pairs child_hashes n' (S i) (parent_hashes ++ [parent])
  end.

(** The padding [child_hashes += [child_hashes[len(child_hashes) - 1]]]. *)
Definition merkle_pad (child_hashes : list string) : result (list string) :=
  if Nat.odd (length child_hashes) then
    l ← index child_hashes (length child_hashes - 1);
    Ret (child_hashes ++ [l])
  else Ret child_hashes.

(** The recursion of [get_merkle_root], with a bound on its depth: [Diverge]
    when the bound is reached. *)
Fixpoint get_merkle_root_fuel (fuel : nat) (child_hashes : list string)
    : result string :=
  match fuel with
  | O => Diverge
  | S fuel' =>
      if decide (length child_hashes = 1%nat) then index child_hashes 0
      else
        child_hashes ← merkle_pad child_hashes;
        let num_pair := (length child_hashes / 2)%nat in
        parent_hashes ← merkle_pairs child_hashes num_pair 0 [];
        get_merkle_root_fuel fuel' parent_hashes
  end.

(** A list of [n >= 1] hashes needs at most [n] nested calls, so this is
    [get_merkle_root] on every list on which the recursion ends; on the empty
    list it never does (see [get_merkle_root_fuel_nil]). *)
Definition get_merkle_root (child_hashes : list string) : result string :=
  get_merkle_root_fuel (S (length child_hashes)) child_hashes.

(** ** [parse_var_len_int] *)

Local Open Scope Z_scope.

Definition parse_var_len_int (block : list byte) (nth_byte : Z)
    : result (Z * Z) :=
  first_byte ← struct_unpack 1 (slice block nth_byte (nth_byte + 1));
  if first_byte <? 0xFD then Ret (first_byte, 1)
  else if first_byte =? 0xFD then
    data ← struct_unpack 2 (slice block (nth_byte + 1) (nth_byte + 3));
    Ret (data, 3)
  else if first_byte =? 0xFE then
    data ← struct_unpack 4 (slice block (nth_byte + 1) (nth_byte + 5));
    Ret (data, 5)
  else if first_byte =? 0xFF then
    data ← struct_unpack 8 (slice block (nth_byte + 1) (nth_byte + 9));
    Ret (data, 9)
  else
    (* should not get here *)
    Ret (0, 0).

(** ** [parse_block] *)

(** The state of the cursor while one transaction is read: the offset and the
    hex text of the raw transaction gathered so far. *)
Record cursor : Type := Cursor { nth_byte_of : Z; raw_tx_data_of : string }.

(** [raw_tx_data += byte_to_hex_string_little(block[nth_byte: nth_byte + n])]
    followed by [nth_byte += n]. *)
Definition take_field (block : list byte) (c : cursor) (n : Z)
    : string * cursor :=
  let field := byte_to_hex_string_little
                 (slice block (nth_byte_of c) (nth_byte_of c + n)) in
  (field, Cursor (nth_byte_of c + n) (raw_tx_data_of c +:+ field)).

(** A variable-length integer, its bytes added to the raw transaction. *)
Definition take_var_len_int (block : list byte) (c : cursor)
    : result (Z * cursor) :=
  '(v, num_byte_parsed) ← parse_var_len_int block (nth_byte_of c);
  let '(_, c) := take_field block c num_byte_parsed in
  Ret (v, c).

(** The body of [for j in range(0, input_tx_count)], [n] times. *)
Fixpoint parse_inputs (block : list byte) (n : nat) (c : cursor)
    (input_transactions : list InputTransaction)
    : result (list InputTransaction * cursor) :=
  match n with
  | O => Ret (input_transactions, c)
  | S n' =>
      let '(prev_tx_hash, c) := take_field block c 32 in
      let '(prev_tx_index, c) := take_field block c 4 in
      '(script_size, c) ← take_var_len_int block c;
      let '(script, c) := take_field block c script_size in
      let '(seq_num, c) := take_field block c 4 in
      let input_tx := {| itx_prev_tx_hash := prev_tx_hash;
                         itx_script := script;
                         itx_seq_num := seq_num |} in
      parse_inputs block n' c (input_transactions ++ [input_tx])
  end.

(** The body of [for j in range(0, output_tx_count)], [n] times. *)
Fixpoint parse_outputs (block : list byte) (n : nat) (c : cursor)
    (output_transactions : list OutputTransaction)
    : result (list OutputTransaction * cursor) :=
  match n with
  | O => Ret (output_transactions, c)
  | S n' =>
      let '(satoshi_amount, c) := take_field block c 8 in
      '(script_size, c) ← take_var_len_int block c;
      let '(script, c) := take_field block c script_size in
      let output_tx := {| otx_satoshi_amount := satoshi_amount;
                          otx_script := script |} in
      parse_outputs block n' c (output_transactions ++ [output_tx])
  end.

(** What the loop over the transactions of a block carries. *)
Record tx_loop : Type := TxLoop {
  tl_nth_byte : Z;
  tl_tx_hashes : list string;
  tl_transactions : list Transaction;
  tl_txid_to_prev_hash : gmap string string
}.

(** The body of [for i in range(0, tx_count)], [n] times. *)
Fixpoint parse_transactions (block : list byte) (prev_hash : string)
    (n : nat) (s : tx_loop) : result tx_loop :=
  match n with
  | O => Ret s
  | S n' =>
      let c := Cursor (tl_nth_byte s) "" in
      let '(tx_ver_num, c) := take_field block c 4 in
      '(input_tx_count, c) ← take_var_len_int block c;
      '(input_transactions, c) ←
        parse_inputs block (Z.to_nat input_tx_count) c [];
      '(output_tx_count, c) ← take_var_len_int block c;
      '(output_transactions, c) ←
        parse_outputs block (Z.to_nat output_tx_count) c [];
      let '(locktime, c) := take_field block c 4 in
      raw_tx_data_bin ← decode_hex (raw_tx_data_of c);
      let tx_hash := double_sha256 raw_tx_data_bin in
      let tx_hash_little := hexlify tx_hash in
      let tx := {| tx_hash := tx_hash_little;
                   tx_version := tx_ver_num;
                   input_tx_count := input_tx_count;
                   input_txs := input_transactions;
                   output_tx_count := output_tx_count;
                   output_txs := output_transactions;
                   locktime := locktime |} in
      parse_transactions block prev_hash n'
        (TxLoop (nth_byte_of c)
                (tl_tx_hashes s ++ [tx_hash_little])
                (tl_transactions s ++ [tx])
                (<[tx_hash_little := prev_hash]> (tl_txid_to_prev_hash s)))
  end.

(** [parse_block(block, nth_byte)]: the size of the record and the module
    variables after the insertion of the block. An exception ends the run, so
    the variables are returned on success only. *)
Definition parse_block (g : globals) (block : list byte) (nth_byte : Z)
    : result (Z * globals) :=
  let magic_num := byte_to_hex_string_big (slice block nth_byte (nth_byte + 4)) in
  _ ← assert (bool_decide (magic_num = "d9b4bef9"));
  let nth_byte := nth_byte + 4 in
  block_size ← struct_unpack 4 (slice block nth_byte (nth_byte + 4));
  let nth_byte := nth_byte + 4 in
  let start_block_byte := nth_byte in
  let ver_num := byte_to_hex_string_little (slice block nth_byte (nth_byte + 4)) in
  let nth_byte := nth_byte + 4 in
  let prev_hash := byte_to_hex_string_little (slice block nth_byte (nth_byte + 32)) in
  let nth_byte := nth_byte + 32 in
  let merk_hash := byte_to_hex_string_little (slice block nth_byte (nth_byte + 32)) in
  let nth_byte := nth_byte + 32 in
  let start_time := byte_to_hex_string_little (slice block nth_byte (nth_byte + 4)) in
  let nth_byte := nth_byte + 4 in
  let nBits := byte_to_hex_string_little (slice block nth_byte (nth_byte + 4)) in
  let nth_byte := nth_byte + 4 in
  let nonce := byte_to_hex_string_little (slice block nth_byte (nth_byte + 4)) in
  let nth_byte := nth_byte + 4 in
  '(tx_count, num_byte_parsed) ← parse_var_len_int block nth_byte;
  let nth_byte := nth_byte + num_byte_parsed in
  s ← parse_transactions block prev_hash (Z.to_nat tx_count)
        (TxLoop nth_byte [] [] (txid_to_prev_hash g));
  let nth_byte := tl_nth_byte s in
  _ ← assert (nth_byte - start_block_byte =? block_size);
  merk_root_of_txs ← get_merkle_root (tl_tx_hashes s);
  _ ← assert (bool_decide (merk_hash = merk_root_of_txs));
  let block := {| version := ver_num;
                  previous_block_header_hash := prev_hash;
                  merkle_root_hash := merk_hash;
                  start_time := start_time;
                  nBits := nBits;
                  nonce := nonce;
                  main_chain := false;
                  height := 0;
                  tx_count := tx_count;
                  txs := tl_transactions s |} in
  let blocks :=
    match prev_hash_to_blocks g !! prev_hash with
    | Some l => l ++ [block]
    | None => [block]
    end in
  curr_hash ← get_curr_hash_little block;
  Ret (block_size,
       {| prev_hash_to_blocks := <[prev_hash := blocks]> (prev_hash_to_blocks g);
          curr_hash_to_prev_hash :=
            <[curr_hash := prev_hash]> (curr_hash_to_prev_hash g);
          block_count := block_count g;
          blockchain_height := blockchain_height g;
          latest_block_little := latest_block_little g;
          txid_to_prev_hash := tl_txid_to_prev_hash s |}).

(** *** The genesis block of Bitcoin, as a record of a block file *)

Definition unhex (s : string) : list byte :=
  match unhexlify s with Some bs => bs | None => [] end.

Definition genesis_coinbase_text : string :=
  "The Times 03/Jan/2009 Chancellor on brink of second bailout for banks".

Definition genesis_record : list byte :=
  unhex "f9beb4d9" ++ unhex "1d010000" ++
  unhex "01000000" ++
  unhex "0000000000000000000000000000000000000000000000000000000000000000" ++
  unhex "3ba3edfd7a7b12b27ac72c3e67768f617fc81bc3888a51323a9fb8aa4b1e5e4a" ++
  unhex "29ab5f49" ++ unhex "ffff001d" ++ unhex "1dac2b7c" ++
  unhex "01" ++
  unhex "01000000" ++ unhex "01" ++
  unhex "0000000000000000000000000000000000000000000000000000000000000000" ++
  unhex "ffffffff" ++
  unhex "4d" ++ unhex "04ffff001d010445" ++ bytes_of_text genesis_coinbase_text ++
  unhex "ffffffff" ++
  unhex "01" ++
  unhex "00f2052a01000000" ++
  unhex "43" ++
  unhex "4104678afdb0fe5548271967f1a67130b7105cd6a828e03909a67962e0ea1f61deb6" ++
  unhex "49f6bc3f4cef38c4f35504e51ec112de5c384df7ba0b8d578a4c702b6bf11d5fac" ++
  unhex "00000000".

Definition genesis_hash_little : string :=
  "6fe28c0ab6f1b372c1a6a246ae63f74f931e8365e15a089c68d6190000000000".

Definition genesis_hash_big : string :=
  "000000000019d6689c085ae165831e934ff763ae46a2a6c172b3f1b60a8ce26f".


(** ** [load_file], [load_blockchain] *)

Definition set_block_count (g : globals) (n : Z) : globals :=
  {| prev_hash_to_blocks := prev_hash_to_blocks g;
     curr_hash_to_prev_hash := curr_hash_to_prev_hash g;
     block_count := n;
     blockchain_height := blockchain_height g;
     latest_block_little := latest_block_little g;
     txid_to_prev_hash := txid_to_prev_hash g |}.

Definition set_blocks (g : globals) (m : gmap string (list Block)) : globals :=
  {| prev_hash_to_blocks := m;
     curr_hash_to_prev_hash := curr_hash_to_prev_hash g;
     block_count := block_count g;
     blockchain_height := blockchain_height g;
     latest_block_little := latest_block_little g;
     txid_to_prev_hash := txid_to_prev_hash g |}.

Definition set_latest (g : globals) (h : Z) (tip : string) : globals :=
  {| prev_hash_to_blocks := prev_hash_to_blocks g;
     curr_hash_to_prev_hash := curr_hash_to_prev_hash g;
     block_count := block_count g;
     blockchain_height := h;
     latest_block_little := tip;
     txid_to_prev_hash := txid_to_prev_hash g |}.

(** The loop [while True] of [load_file] over the bytes [data] of one file,
    [file_end] being the size of the file. [offsets] is a history variable:
    the offsets at which [parse_block] was called, in order; nothing reads
    it. [fuel] bounds the number of records. *)
Fixpoint load_file_loop (fuel : nat) (data : list byte) (file_end : Z)
    (g : globals) (header_start : Z) (offsets : list Z)
    : result (globals * list Z) :=
  match fuel with
  | O => Diverge
  | S fuel' =>
      '(block_size, g) ← parse_block g data header_start;
      let offsets := offsets ++ [header_start] in
      let g := set_block_count g (block_count g + 1) in
      let header_start := header_start + (4 + block_size + 4) in
      if header_start + (4 + 4 + 80) >=? file_end then Ret (g, offsets)
      else load_file_loop fuel' data file_end g header_start offsets
  end.

(** Every turn of the loop moves the offset by 8 bytes at least, so a file of
    [n] bytes has fewer than [n + 1] turns. *)
Definition load_file_trace (g : globals) (data : list byte)
    : result (globals * list Z) :=
  load_file_loop (S (length data)) data (Z.of_nat (length data)) g 0 [].

Definition load_file (g : globals) (data : list byte) : result globals :=
  '(g, _) ← load_file_trace g data; Ret g.

(** [load_blockchain]: [files] holds the contents of [blk00000.dat],
    [blk00001.dat], ... in this order. *)
Fixpoint load_blockchain (g : globals) (files : list (list byte))
    : result globals :=
  match files with
  | [] => Ret g
  | data :: rest => g ← load_file g data; load_blockchain g rest
  end.

(** ** [compute_distances_bfs] *)

(** A history record: the block at position [ev_index] of the list stored
    under [ev_parent] was found to have the new header hash [ev_hash] and was
    given the distance [ev_distance]. *)
Record discovery : Type := Discovery {
  ev_parent : string;
  ev_index : nat;
  ev_hash : string;
  ev_distance : Z
}.

(** The local variables of [compute_distances_bfs]; [discovered] is a
    history variable (the discoveries in order) that nothing reads. *)
Record bfs_state : Type := BfsState {
  queue : list string;
  distances : gmap string Z;
  max_distance : Z;
  max_hash : string;
  discovered : list discovery
}.

(** The loop [for block in blocks] for the blocks from position [i] on; the
    blocks come back with their heights set. *)
Fixpoint visit_blocks (curr_hash : string) (blocks : list Block) (i : nat)
    (s : bfs_state) : result (list Block * bfs_state) :=
  match blocks with
  | [] => Ret ([], s)
  | block :: rest =>
      next_hash ← get_curr_hash_little block;
      match distances s !! next_hash with
      | Some _ =>
          '(rest, s) ← visit_blocks curr_hash rest (S i) s;
          Ret (block :: rest, s)
      | None =>
          let queue := queue s ++ [next_hash] in
          d_curr ← getitem (distances s) curr_hash;
          (* distances[next_hash], read three times below in the source *)
          let d_next := d_curr + 1 in
          let distances := <[next_hash := d_next]> (distances s) in
          let block := set_height block (d_next - 1) in
          let ev := Discovery curr_hash i next_hash d_next in
          let s :=
            if d_next >? max_distance s
            then BfsState queue distances d_next next_hash (discovered s ++ [ev])
            else BfsState queue distances (max_distance s) (max_hash s)
                          (discovered s ++ [ev]) in
          '(rest, s) ← visit_blocks curr_hash rest (S i) s;
          Ret (block :: rest, s)
      end
  end.

(** The loop [while len(queue) != 0]. *)
Fixpoint bfs_loop (fuel : nat) (m : gmap string (list Block)) (s : bfs_state)
    : result (gmap string (list Block) * bfs_state) :=
  match fuel with
  | O => Diverge
  | S fuel' =>
      match queue s with
      | [] => Ret (m, s)
      | curr_hash :: queue' =>
          let s := BfsState queue' (distances s) (max_distance s) (max_hash s)
                            (discovered s) in
          match m !! curr_hash with
          | None => bfs_loop fuel' m s
          | Some blocks =>
              '(blocks, s) ← visit_blocks curr_hash blocks 0 s;
              bfs_loop fuel' (<[curr_hash := blocks]> m) s
          end
      end
  end.

Definition bfs_init : bfs_state :=
  BfsState [source_hash] {[ source_hash := 0 ]} (-1) "" [].

(** The blocks of the index, and their number. *)
Definition all_blocks (m : gmap string (list Block)) : list Block :=
  map_to_list m ≫= snd.

Definition total_blocks (m : gmap string (list Block)) : nat :=
  length (all_blocks m).

(** A hash enters the queue once at most, when a block is discovered, so the
    loop has at most [total_blocks m + 1] turns that pop a hash, and one more
    that sees the empty queue. *)
Definition bfs_run (m : gmap string (list Block))
    : result (gmap string (list Block) * bfs_state) :=
  bfs_loop (S (S (total_blocks m))) m bfs_init.

Definition compute_distances_bfs (g : globals)
    : result (string * Z * globals) :=
  '(m, s) ← bfs_run (prev_hash_to_blocks g);
  Ret (max_hash s, max_distance s - 1, set_blocks g m).

(** ** [setup] *)

(** [for block in blocks: if block.get_curr_hash_little() == curr_hash:
    block.set_main_chain(); break]. *)
Fixpoint mark_first (blocks : list Block) (curr_hash : string)
    : result (list Block) :=
  match blocks with
  | [] => Ret []
  | block :: rest =>
      h ← get_curr_hash_little block;
      if decide (h = curr_hash) then Ret (set_main_chain block :: rest)
      else rest ← mark_first rest curr_hash; Ret (block :: rest)
  end.

(** The loop [while prev_hash != source_hash] of [setup]. *)
Fixpoint mark_walk (fuel : nat) (c2p : gmap string string)
    (m : gmap string (list Block)) (curr_hash prev_hash : string)
    : result (gmap string (list Block)) :=
  match fuel with
  | O => Diverge
  | S fuel' =>
      if decide (prev_hash ≠ source_hash) then
        blocks ← getitem m prev_hash;
        blocks ← mark_first blocks curr_hash;
        let m := <[prev_hash := blocks]> m in
        let curr_hash := prev_hash in
        prev_hash ← getitem c2p prev_hash;
        mark_walk fuel' c2p m curr_hash prev_hash
      else Ret m
  end.

(** [setup] after the files are loaded. The walk follows
    [curr_hash_to_prev_hash], which has [size] keys: a walk of more turns
    repeats a key and never ends. *)
Definition resolve (g : globals) : result globals :=
  '(longest_hash, longest_chain_height, g) ← compute_distances_bfs g;
  let g := set_latest g longest_chain_height longest_hash in
  latest_block ← reverse_hex (latest_block_little g);
  let curr_hash := longest_hash in
  prev_hash ← getitem (curr_hash_to_prev_hash g) longest_hash;
  m ← mark_walk (S (size (curr_hash_to_prev_hash g)))
        (curr_hash_to_prev_hash g) (prev_hash_to_blocks g) curr_hash prev_hash;
  blocks ← getitem m source_hash;
  block0 ← index blocks 0;
  let blocks := <[0%nat := set_main_chain block0]> blocks in
  Ret (set_blocks g (<[source_hash := blocks]> m)).

Definition setup (files : list (list byte)) : result globals :=
  g ← load_blockchain initial_globals files;
  resolve g.

(** ** Query accessors *)

(** Conversion of a Python integer to a [float], rounded to the nearest
    binary64 value, ties to even. *)
Definition Z_to_float (z : Z) : float :=
  SF2Prim (binary_normalize prec emax z 0 false).

(** [satoshi / 100000000.0] *)
Definition btc_of_satoshi (satoshi : Z) : float :=
  (Z_to_float satoshi / 100000000)%float.

(** [for block in blocks: if block.get_curr_hash_little() == h: ...]: the
    first block of the list whose header hash is [h], if the loop reaches
    one. *)
Fixpoint find_block (blocks : list Block) (h : string)
    : result (option Block) :=
  match blocks with
  | [] => Ret None
  | block :: rest =>
      c ← get_curr_hash_little block;
      if decide (c = h) then Ret (Some block) else find_block rest h
  end.

(** [for i in range(0, count): tx = txs[i]; if tx.get_hash_little() == h:
    ...], from index [i], [n] turns. *)
Fixpoint find_tx_from (txs : list Transaction) (n i : nat) (h : string)
    : result (option Transaction) :=
  match n with
  | O => Ret None
  | S n' =>
      tx ← index txs i;
      if decide (get_hash_little tx = h) then Ret (Some tx)
      else find_tx_from txs n' (S i) h
  end.

(** The two nested loops of the transaction accessors. *)
Fixpoint find_tx (blocks : list Block) (h : string)
    : result (option (Block * Transaction)) :=
  match blocks with
  | [] => Ret None
  | block :: rest =>
      r ← find_tx_from (txs block) (Z.to_nat (tx_count block)) 0 h;
      match r with
      | Some tx => Ret (Some (block, tx))
      | None => find_tx rest h
      end
  end.

(** [btc_amount = 0.0; for j in range(0, output_count): ...
    btc_amount += (satoshi / 100000000.0)], from index [j], [n] turns. *)
Fixpoint sum_btc (output_txs : list OutputTransaction) (n j : nat)
    (btc_amount : float) : result float :=
  match n with
  | O => Ret btc_amount
  | S n' =>
      output_tx ← index output_txs j;
      satoshi ← get_satoshi_int output_tx;
      sum_btc output_txs n' (S j) (btc_amount + btc_of_satoshi satoshi)%float
  end.


Definition get_block_height (g : globals) (block_hash_big : string)
    : result Z :=
  block_hash_little ← reverse_hex block_hash_big;
  match curr_hash_to_prev_hash g !! block_hash_little with
  | None => Ret (-1)
  | Some prev_hash =>
      blocks ← getitem (prev_hash_to_blocks g) prev_hash;
      r ← find_block blocks block_hash_little;
      match r with
      | Some block => Ret (height block)
      | None => Ret (-1)
      end
  end.

Definition get_main_chain (g : globals) (block_hash_big : string)
    : result bool :=
  block_hash_little ← reverse_hex block_hash_big;
  match curr_hash_to_prev_hash g !! block_hash_little with
  | None => Ret false
  | Some prev_hash =>
      blocks ← getitem (prev_hash_to_blocks g) prev_hash;
      r ← find_block blocks block_hash_little;
      match r with
      | Some block => Ret (main_chain block)
      | None => Ret false
      end
  end.

Definition get_latest_block (g : globals) : result string :=
  reverse_hex (latest_block_little g).

Definition get_latest_height (g : globals) : Z := blockchain_height g.

(** The loop over the transactions of [get_block_transactions]. *)
Fixpoint block_tx_values (txs : list Transaction) (n i : nat)
    (parsed_txs : list (string * float)) : result (list (string * float)) :=
  match n with
  | O => Ret parsed_txs
  | S n' =>
      tx ← index txs i;
      txid ← get_hash_big tx;
      btc_amount ← sum_btc (output_txs tx) (Z.to_nat (output_tx_count tx)) 0 0;
      block_tx_values txs n' (S i) (parsed_txs ++ [(txid, btc_amount)])
  end.

Definition get_block_transactions (g : globals) (block_hash_big : string)
    : result (Z * list (string * float)) :=
  block_hash_little ← reverse_hex block_hash_big;
  match curr_hash_to_prev_hash g !! block_hash_little with
  | None => Ret (-1, [])
  | Some prev_hash =>
      blocks ← getitem (prev_hash_to_blocks g) prev_hash;
      r ← find_block blocks block_hash_little;
      match r with
      | Some block =>
          let count := tx_count block in
          parsed_txs ← block_tx_values (txs block) (Z.to_nat count) 0 [];
          Ret (count, parsed_txs)
      | None => Ret (-1, [])
      end
  end.

Definition get_transaction_info (g : globals) (tx_hash_big : string)
    : result (string * Z * Z * Z * float * Z) :=
  tx_hash_little ← reverse_hex tx_hash_big;
  match txid_to_prev_hash g !! tx_hash_little with
  | None => Ret ("", -1, -1, -1, 0%float, -1)
  | Some prev_hash =>
      blocks ← getitem (prev_hash_to_blocks g) prev_hash;
      r ← find_tx blocks tx_hash_little;
      match r with
      | Some (block, tx) =>
          ver ← tx_get_version_int tx;
          let input_count := input_tx_count tx in
          let output_count := output_tx_count tx in
          btc_amount ← sum_btc (output_txs tx) (Z.to_nat output_count) 0 0;
          locktime ← get_locktime_int tx;
          block_hash ← get_curr_hash_big block;
          Ret (block_hash, ver, input_count, output_count, btc_amount, locktime)
      | None => Ret ("", -1, -1, -1, 0%float, -1)
      end
  end.



(** The loop over the outputs of [get_transaction_outputs]. *)
Fixpoint parsed_outputs (output_txs : list OutputTransaction) (n j : nat)
    (parsed_output_txs : list (float * string))
    : result (list (float * string)) :=
  match n with
  | O => Ret parsed_output_txs
  | S n' =>
      output_tx ← index output_txs j;
      satoshi ← get_satoshi_int output_tx;
      script ← otx_get_script_big output_tx;
      parsed_outputs output_txs n' (S j)
        (parsed_output_txs ++ [(btc_of_satoshi satoshi, script)])
  end.

Definition get_transaction_outputs (g : globals) (tx_hash_big : string)
    : result (Z * list (float * string)) :=
  tx_hash_little ← reverse_hex tx_hash_big;
  match txid_to_prev_hash g !! tx_hash_little with
  | None => Ret (-1, [])
  | Some prev_hash =>
      blocks ← getitem (prev_hash_to_blocks g) prev_hash;
      r ← find_tx blocks tx_hash_little;
      match r with
      | Some (block, tx) =>
          let output_count := output_tx_count tx in
          parsed_output_txs ←
            parsed_outputs (output_txs tx) (Z.to_nat output_count) 0 [];
          Ret (output_count, parsed_output_txs)
      | None => Ret (-1, [])
      end
  end.

(** ** [server.py]: [Handler.do_GET] *)

Module Server.




(** *** [int(s, 16)]

    Modelled from the Python 2 library reference for [int(x, base)] and its
    implementation ([PyOS_strtol], [PyLong_FromString]): white space, an
    optional sign, white space, an optional prefix [0x] or [0X] that a hex
    digit follows, one hex digit or more in either case, white space up to
    the end. [int_base16_ok s] holds when the call returns, and the call
    raises [ValueError] otherwise. *)









(** *** The request check and the messages *)








End Server.

(** * Properties *)

(** ** Test vectors *)

(** The test vectors of FIPS 180-4 for the empty message and for "abc". *)
Example sha256_empty :
  hexlify (sha256 []) =
  "e3b0c44298fc1c149afbf4c8996fb92427ae41e4649b934ca495991b7852b855".
Proof. vm_compute. reflexivity. Qed.

Example sha256_abc :
  hexlify (sha256 (bytes_of_text "abc")) =
  "ba7816bf8f01cfea414140de5dae2223b00361a396177a9cb410ff61f20015ad".
Proof. vm_compute. reflexivity. Qed.

(** The record of the genesis block is accepted by [parse_block]: its size
    field, its Merkle root and its header hash are the published ones. *)
Example parse_genesis :
  match parse_block initial_globals genesis_record 0 with
  | Ret (block_size, g) =>
      block_size = 285 /\
      curr_hash_to_prev_hash g !! genesis_hash_little = Some source_hash /\
      txid_to_prev_hash g
        !! "3ba3edfd7a7b12b27ac72c3e67768f617fc81bc3888a51323a9fb8aa4b1e5e4a"
        = Some source_hash
  | _ => False
  end.
Proof. vm_compute. repeat split. Qed.

(** ** Bytes, slices and hex text *)

Lemma byte_to_Z_range (b : byte) : 0 <= byte_to_Z b < 256.
Proof.
  unfold byte_to_Z. pose proof (Byte.to_N_bounded b). lia.
Qed.

Lemma le_to_Z_range (bs : list byte) :
  0 <= le_to_Z bs < 256 ^ Z.of_nat (length bs).
Proof.
  induction bs as [|b r IH]; simpl length; [simpl; lia|].
  rewrite Nat2Z.inj_succ, Z.pow_succ_r by lia.
  cbn [le_to_Z]. pose proof (byte_to_Z_range b). lia.
Qed.

Lemma length_slice (block : list byte) (a b : Z) :
  0 <= a -> a <= b -> b <= Z.of_nat (length block) ->
  length (slice block a b) = Z.to_nat (b - a).
Proof.
  intros Ha Hab Hb. unfold slice.
  rewrite length_take, length_drop. lia.
Qed.

Lemma length_slice_eq (block : list byte) (a w : Z) :
  0 <= a -> 0 <= w -> a + w <= Z.of_nat (length block) ->
  length (slice block a (a + w)) = Z.to_nat w.
Proof.
  intros Ha Hw Hb. rewrite length_slice by lia. f_equal. lia.
Qed.

Lemma slice_one (block : list byte) (n : Z) (b : byte) :
  0 <= n -> block !! Z.to_nat n = Some b -> slice block n (n + 1) = [b].
Proof.
  intros Hn Hb. unfold slice.
  replace (n + 1 - n) with 1 by lia.
  apply drop_S in Hb. rewrite Hb. reflexivity.
Qed.

Lemma struct_unpack_slice (block : list byte) (a : Z) (size : nat) :
  0 <= a -> a + Z.of_nat size <= Z.of_nat (length block) ->
  struct_unpack size (slice block a (a + Z.of_nat size))
  = Ret (le_to_Z (slice block a (a + Z.of_nat size))).
Proof.
  intros Ha Hb. unfold struct_unpack.
  rewrite length_slice by lia.
  rewrite decide_True by lia. reflexivity.
Qed.

(** ** [parse_var_len_int] *)

(** The byte counts that [parse_var_len_int] can return. *)
Lemma parse_var_len_int_count (block : list byte) (nth_byte v n : Z) :
  parse_var_len_int block nth_byte = Ret (v, n) ->
  n = 1 \/ n = 3 \/ n = 5 \/ n = 9.
Proof.
  unfold parse_var_len_int, struct_unpack.
  destruct (decide (length (slice block nth_byte (nth_byte + 1)) = 1%nat))
    as [Hlen|]; [|discriminate].
  destruct (slice block nth_byte (nth_byte + 1)) as [|b [|? ?]];
    try discriminate.
  cbn [mbind result_bind le_to_Z].
  pose proof (byte_to_Z_range b) as Hb.
  replace (byte_to_Z b + 256 * 0) with (byte_to_Z b) by lia.
  repeat case_match; intros Heq; try discriminate;
    injection Heq as <- <-; lia.
Qed.

(** C5. With enough bytes at the offset, [parse_var_len_int] returns
    [(b, 1)] for a first byte [b < 0xFD], the next 2, 4 or 8 bytes read as a
    little-endian integer with the counts 3, 5 and 9 for the first bytes
    0xFD, 0xFE and 0xFF; a byte is in one of these four cases, and whatever
    the buffer, the call never returns the pair [(0, 0)] of the fifth
    branch: a returned count is 1, 3, 5 or 9. *)
Theorem parse_var_len_int_spec (block : list byte) (nth_byte : Z) (b : byte)
    (Hoff : 0 <= nth_byte)
    (Hfirst : block !! Z.to_nat nth_byte = Some b) :
  (byte_to_Z b < 0xFD ->
     parse_var_len_int block nth_byte = Ret (byte_to_Z b, 1)) /\
  (byte_to_Z b = 0xFD -> nth_byte + 3 <= Z.of_nat (length block) ->
     parse_var_len_int block nth_byte
     = Ret (le_to_Z (slice block (nth_byte + 1) (nth_byte + 3)), 3) /\
     length (slice block (nth_byte + 1) (nth_byte + 3)) = 2%nat) /\
  (byte_to_Z b = 0xFE -> nth_byte + 5 <= Z.of_nat (length block) ->
     parse_var_len_int block nth_byte
     = Ret (le_to_Z (slice block (nth_byte + 1) (nth_byte + 5)), 5) /\
     length (slice block (nth_byte + 1) (nth_byte + 5)) = 4%nat) /\
  (byte_to_Z b = 0xFF -> nth_byte + 9 <= Z.of_nat (length block) ->
     parse_var_len_int block nth_byte
     = Ret (le_to_Z (slice block (nth_byte + 1) (nth_byte + 9)), 9) /\
     length (slice block (nth_byte + 1) (nth_byte + 9)) = 8%nat) /\
  (byte_to_Z b < 0xFD \/ byte_to_Z b = 0xFD \/
   byte_to_Z b = 0xFE \/ byte_to_Z b = 0xFF) /\
  (forall v n, parse_var_len_int block nth_byte = Ret (v, n) ->
     (v, n) <> (0, 0) /\ (n = 1 \/ n = 3 \/ n = 5 \/ n = 9)).
Proof.
  pose proof (byte_to_Z_range b) as Hb.
  assert (Hhead : struct_unpack 1 (slice block nth_byte (nth_byte + 1))
                  = Ret (byte_to_Z b)).
  { rewrite (slice_one _ _ _ Hoff Hfirst). unfold struct_unpack.
    rewrite decide_True by reflexivity. cbn [le_to_Z]. f_equal. lia. }
  assert (Hwide : forall k : nat,
            nth_byte + 1 + Z.of_nat k <= Z.of_nat (length block) ->
            struct_unpack k (slice block (nth_byte + 1) (nth_byte + 1 + Z.of_nat k))
            = Ret (le_to_Z (slice block (nth_byte + 1) (nth_byte + 1 + Z.of_nat k))) /\
            length (slice block (nth_byte + 1) (nth_byte + 1 + Z.of_nat k)) = k).
  { intros k Hk. split; [apply struct_unpack_slice; lia|].
    rewrite length_slice by lia. lia. }
  assert (Hcount : forall v n, parse_var_len_int block nth_byte = Ret (v, n) ->
            (v, n) <> (0, 0) /\ (n = 1 \/ n = 3 \/ n = 5 \/ n = 9)).
  { intros v n Hr. apply parse_var_len_int_count in Hr.
    split; [intros Heq; injection Heq as -> ->; lia | exact Hr]. }
  unfold parse_var_len_int in *. rewrite Hhead. cbn [mbind result_bind].
  split; [|split; [|split; [|split; [|split]]]].
  - intros Hlt. apply Z.ltb_lt in Hlt. rewrite Hlt. reflexivity.
  - intros Hfd Hlen. destruct (Hwide 2%nat) as [Hu Hl]; [lia|].
    replace (nth_byte + 1 + Z.of_nat 2) with (nth_byte + 3) in Hu, Hl by lia.
    rewrite Hfd, Hu. split; [reflexivity | exact Hl].
  - intros Hfe Hlen. destruct (Hwide 4%nat) as [Hu Hl]; [lia|].
    replace (nth_byte + 1 + Z.of_nat 4) with (nth_byte + 5) in Hu, Hl by lia.
    rewrite Hfe, Hu. split; [reflexivity | exact Hl].
  - intros Hff Hlen. destruct (Hwide 8%nat) as [Hu Hl]; [lia|].
    replace (nth_byte + 1 + Z.of_nat 8) with (nth_byte + 9) in Hu, Hl by lia.
    rewrite Hff, Hu. split; [reflexivity | exact Hl].
  - lia.
  - rewrite Hhead in Hcount. exact Hcount.
Qed.

(** ** Hex text *)

Lemma hex_byte_roundtrip (b : byte) :
  hex_value (hex_digit (Byte.to_N b / 16)%N) = Some (Byte.to_N b / 16)%N /\
  hex_value (hex_digit (Byte.to_N b mod 16)%N) = Some (Byte.to_N b mod 16)%N /\
  Byte.of_N (16 * (Byte.to_N b / 16) + Byte.to_N b mod 16)%N = Some b.
Proof. destruct b; vm_compute; repeat split. Qed.

Lemma unhexlify_hexlify (bs : list byte) : unhexlify (hexlify bs) = Some bs.
Proof.
  induction bs as [|b r IH]; [reflexivity|].
  destruct (hex_byte_roundtrip b) as (Hh & Hl & Hb).
  cbn [hexlify unhexlify]. rewrite Hh, Hl, IH, Hb. reflexivity.
Qed.

Lemma decode_hex_hexlify (bs : list byte) : decode_hex (hexlify bs) = Ret bs.
Proof. unfold decode_hex. rewrite unhexlify_hexlify. reflexivity. Qed.

Lemma hexlify_app (a b : list byte) :
  hexlify (a ++ b) = hexlify a +:+ hexlify b.
Proof.
  induction a as [|x a IH]; [reflexivity|].
  cbn [hexlify app String.append]. rewrite IH. reflexivity.
Qed.

Lemma hexlify_inj (a b : list byte) : hexlify a = hexlify b -> a = b.
Proof.
  intros H. apply (f_equal unhexlify) in H.
  rewrite !unhexlify_hexlify in H. congruence.
Qed.

(** ** The Merkle root *)

(** *** The recursion of section 4.2.1 of the specification, on raw hashes *)









(** *** [get_merkle_root] against the recursion of the specification *)







(** *** Termination of [get_merkle_root] *)

Lemma merkle_pairs_length (l : list string) (n : nat) :
  forall (i : nat) (acc parents : list string),
    merkle_pairs l n i acc = Ret parents ->
    length parents = (length acc + n)%nat.
Proof.
  induction n as [|n IH]; intros i acc parents Hrun.
  - cbn [merkle_pairs] in Hrun. injection Hrun as <-. lia.
  - cbn [merkle_pairs] in Hrun.
    destruct (index l (i * 2)) as [c1| |]; try discriminate.
    destruct (index l (i * 2 + 1)) as [c2| |]; try discriminate.
    cbn [mbind result_bind] in Hrun.
    destruct (decode_hex c1) as [b1| |]; try discriminate.
    destruct (decode_hex c2) as [b2| |]; try discriminate.
    cbn [mbind result_bind] in Hrun.
    apply IH in Hrun. rewrite length_app in Hrun. simpl in Hrun. lia.
Qed.

Lemma merkle_pairs_no_diverge (l : list string) (n : nat) :
  forall (i : nat) (acc : list string), merkle_pairs l n i acc <> Diverge.
Proof.
  induction n as [|n IH]; intros i acc; cbn [merkle_pairs]; [discriminate|].
  unfold index, decode_hex.
  destruct (l !! (i * 2)%nat) as [c1|]; [|discriminate].
  destruct (l !! (i * 2 + 1)%nat) as [c2|]; [|discriminate].
  cbn [mbind result_bind].
  destruct (unhexlify c1); [|discriminate].
  destruct (unhexlify c2); [|discriminate].
  cbn [mbind result_bind]. apply IH.
Qed.

Lemma merkle_pad_length (l padded : list string) :
  merkle_pad l = Ret padded ->
  length padded = (if Nat.odd (length l) then S (length l) else length l).
Proof.
  unfold merkle_pad. destruct (Nat.odd (length l)).
  - destruct (index l (length l - 1)) as [x| |]; try discriminate.
    cbn [mbind result_bind]. intros Heq. injection Heq as <-.
    rewrite length_app. simpl. lia.
  - intros Heq. injection Heq as <-. reflexivity.
Qed.

Lemma merkle_pad_no_diverge (l : list string) : merkle_pad l <> Diverge.
Proof.
  unfold merkle_pad, index. destruct (Nat.odd (length l)); [|discriminate].
  destruct (l !! (length l - 1)%nat); discriminate.
Qed.

Lemma half_padded_lt (n : nat) :
  (2 <= n)%nat ->
  (1 <= (if Nat.odd n then S n else n) / 2 < n)%nat.
Proof.
  intros Hn. destruct (Nat.odd n); split;
    try (apply Nat.div_le_lower_bound; lia);
    apply Nat.Div0.div_lt_upper_bound; lia.
Qed.

(** Each nested call of [get_merkle_root] is on a strictly shorter, non-empty
    list. *)
Lemma merkle_step_shorter (l padded parents : list string) :
  (2 <= length l)%nat ->
  merkle_pad l = Ret padded ->
  merkle_pairs padded (length padded / 2) 0 [] = Ret parents ->
  (1 <= length parents < length l)%nat.
Proof.
  intros Hn Hpad Hpairs.
  apply merkle_pairs_length in Hpairs. apply merkle_pad_length in Hpad.
  rewrite Hpairs, Hpad. simpl. apply half_padded_lt. exact Hn.
Qed.

(** With a bound of the length of the list or more, the recursion ends, and
    with the same result whatever the bound. *)
Lemma get_merkle_root_fuel_enough (fuel : nat) :
  forall l : list string,
    (1 <= length l <= fuel)%nat ->
    get_merkle_root_fuel fuel l <> Diverge /\
    forall fuel', (length l <= fuel')%nat ->
      get_merkle_root_fuel fuel' l = get_merkle_root_fuel fuel l.
Proof.
  induction fuel as [|fuel IH]; intros l Hlen; [lia|].
  destruct (decide (length l = 1%nat)) as [Hone|Hne].
  - split.
    + cbn [get_merkle_root_fuel]. rewrite decide_True by exact Hone.
      unfold index. destruct (l !! 0%nat); discriminate.
    + intros [|fuel'] Hf; [lia|].
      cbn [get_merkle_root_fuel]. rewrite !decide_True by exact Hone.
      reflexivity.
  - assert (Hstep : forall f, get_merkle_root_fuel (S f) l =
              padded ← merkle_pad l;
              parents ← merkle_pairs padded (length padded / 2) 0 [];
              get_merkle_root_fuel f parents).
    { intros f. cbn [get_merkle_root_fuel].
      rewrite decide_False by exact Hne. reflexivity. }
    pose proof (merkle_pad_no_diverge l) as Hpd.
    split.
    + rewrite Hstep.
      destruct (merkle_pad l) as [padded| |] eqn:Hpad; try discriminate;
        [|congruence].
      cbn [mbind result_bind].
      pose proof (merkle_pairs_no_diverge padded (length padded / 2) 0 []) as Hqd.
      destruct (merkle_pairs padded (length padded / 2) 0 [])
        as [parents| |] eqn:Hpairs; try discriminate; [|congruence].
      cbn [mbind result_bind].
      destruct (merkle_step_shorter l padded parents) as [Hp1 Hp2];
        [lia|assumption..|].
      apply IH. lia.
    + intros [|fuel'] Hf; [lia|]. rewrite !Hstep.
      destruct (merkle_pad l) as [padded| |] eqn:Hpad; try reflexivity.
      cbn [mbind result_bind].
      destruct (merkle_pairs padded (length padded / 2) 0 [])
        as [parents| |] eqn:Hpairs; try reflexivity.
      cbn [mbind result_bind].
      destruct (merkle_step_shorter l padded parents) as [Hp1 Hp2];
        [lia|assumption..|].
      destruct (IH parents) as [_ Hind]; [lia|].
      apply Hind. lia.
Qed.

(** On the empty list every call makes one more call on the empty list. *)
Lemma get_merkle_root_fuel_nil (fuel : nat) :
  get_merkle_root_fuel fuel [] = Diverge.
Proof.
  induction fuel as [|fuel IH]; [reflexivity|].
  cbn [get_merkle_root_fuel]. rewrite decide_False by (simpl; lia).
  cbn. exact IH.
Qed.

Lemma get_merkle_root_Ret_nonempty (l : list string) (root : string) :
  get_merkle_root l = Ret root -> l <> [].
Proof.
  intros Hrun ->. unfold get_merkle_root in Hrun.
  rewrite get_merkle_root_fuel_nil in Hrun. discriminate.
Qed.

(** ** The block decoder *)

(** What the decoder guarantees about the records it builds, whatever the
    bytes: fields that a variable-length integer follows are complete. *)
Definition wf_output (o : OutputTransaction) : Prop :=
  exists amount script : list byte,
    otx_satoshi_amount o = hexlify amount /\ length amount = 8%nat /\
    otx_script o = hexlify script.

Definition wf_input (i : InputTransaction) : Prop :=
  exists prev script seq_num : list byte,
    itx_prev_tx_hash i = hexlify prev /\ length prev = 32%nat /\
    itx_script i = hexlify script /\
    itx_seq_num i = hexlify seq_num /\ length seq_num = 4%nat.

Definition wf_tx (t : Transaction) : Prop :=
  (exists raw : list byte, tx_hash t = hexlify (double_sha256 raw)) /\
  (exists v : list byte, tx_version t = hexlify v /\ length v = 4%nat) /\
  input_tx_count t = Z.of_nat (length (input_txs t)) /\
  Forall wf_input (input_txs t) /\
  output_tx_count t = Z.of_nat (length (output_txs t)) /\
  Forall wf_output (output_txs t) /\
  (exists l : list byte, locktime t = hexlify l).

Lemma parse_var_len_int_Ret (block : list byte) (off v k : Z) :
  parse_var_len_int block off = Ret (v, k) ->
  0 <= v /\ 1 <= k /\ (Z.to_nat off < length block)%nat.
Proof.
  intros Hrun. pose proof (parse_var_len_int_count _ _ _ _ Hrun) as Hk.
  unfold parse_var_len_int, struct_unpack in Hrun.
  destruct (decide (length (slice block off (off + 1)) = 1%nat))
    as [Hlen|]; [|discriminate].
  split; [|split; [lia|]].
  - cbn [mbind result_bind] in Hrun.
    repeat case_match; try discriminate;
      cbn [mbind result_bind] in Hrun; injection Hrun as <- <-;
      try apply le_to_Z_range; lia.
  - unfold slice in Hlen. rewrite length_take, length_drop in Hlen. lia.
Qed.

Lemma slice_full (block : list byte) (a w off : Z) :
  0 <= a -> 0 <= w -> a + w <= off ->
  (Z.to_nat off < length block)%nat ->
  length (slice block a (a + w)) = Z.to_nat w.
Proof.
  intros Ha Hw Hoff Hlen. apply length_slice_eq; lia.
Qed.

Lemma take_var_len_int_Ret (block : list byte) (c c' : cursor) (v : Z) :
  take_var_len_int block c = Ret (v, c') ->
  0 <= v /\ nth_byte_of c < nth_byte_of c' /\
  (Z.to_nat (nth_byte_of c) < length block)%nat.
Proof.
  unfold take_var_len_int.
  destruct (parse_var_len_int block (nth_byte_of c)) as [[v0 k]| |] eqn:Hv;
    cbn [mbind result_bind]; try discriminate.
  unfold take_field. intros Heq. injection Heq as <- <-.
  apply parse_var_len_int_Ret in Hv. cbn [nth_byte_of]. lia.
Qed.

Lemma parse_outputs_Ret (block : list byte) (n : nat) :
  forall (c c' : cursor) (acc outs : list OutputTransaction),
    0 <= nth_byte_of c ->
    parse_outputs block n c acc = Ret (outs, c') ->
    exists new,
      outs = acc ++ new /\ length new = n /\ Forall wf_output new /\
      nth_byte_of c <= nth_byte_of c'.
Proof.
  induction n as [|n IH]; intros c c' acc outs Hc Hrun.
  - cbn [parse_outputs] in Hrun. injection Hrun as <- <-.
    exists []. rewrite app_nil_r. repeat split; [constructor|lia].
  - cbn [parse_outputs] in Hrun. unfold take_field at 1 in Hrun.
    cbn zeta in Hrun.
    destruct (take_var_len_int block _) as [[script_size c2]| |] eqn:Hv;
      cbn [mbind result_bind] in Hrun; try discriminate.
    apply take_var_len_int_Ret in Hv. cbn [nth_byte_of] in Hv.
    unfold take_field in Hrun. cbn zeta in Hrun.
    apply IH in Hrun; [|cbn [nth_byte_of]; lia].
    destruct Hrun as (new & -> & Hlen & Hwf & Hle). cbn [nth_byte_of] in Hle.
    eexists (_ :: new). rewrite <- app_assoc. split; [reflexivity|].
    split; [simpl; lia|]. split; [|lia].
    constructor; [|exact Hwf].
    eexists _, _. cbn [otx_satoshi_amount otx_script].
    split; [reflexivity|]. split; [|reflexivity].
    unfold byte_to_hex_string_little.
    rewrite (slice_full block (nth_byte_of c) 8 (nth_byte_of c + 8)); lia.
Qed.

Lemma parse_inputs_Ret (block : list byte) (n : nat) :
  forall (c c' : cursor) (acc ins : list InputTransaction),
    0 <= nth_byte_of c ->
    parse_inputs block n c acc = Ret (ins, c') ->
    (Z.to_nat (nth_byte_of c') < length block)%nat ->
    exists new,
      ins = acc ++ new /\ length new = n /\ Forall wf_input new /\
      nth_byte_of c <= nth_byte_of c'.
Proof.
  induction n as [|n IH]; intros c c' acc ins Hc Hrun Hnext.
  - cbn [parse_inputs] in Hrun. injection Hrun as <- <-.
    exists []. rewrite app_nil_r. repeat split; [constructor|lia].
  - cbn [parse_inputs] in Hrun. unfold take_field at 1 2 in Hrun.
    cbn zeta in Hrun. cbn [nth_byte_of raw_tx_data_of] in Hrun.
    destruct (take_var_len_int block _) as [[script_size c2]| |] eqn:Hv;
      cbn [mbind result_bind] in Hrun; try discriminate.
    apply take_var_len_int_Ret in Hv. cbn [nth_byte_of] in Hv.
    unfold take_field in Hrun. cbn zeta in Hrun.
    apply IH in Hrun; [|cbn [nth_byte_of]; lia|exact Hnext].
    destruct Hrun as (new & -> & Hlen & Hwf & Hle). cbn [nth_byte_of] in Hle.
    eexists (_ :: new). rewrite <- app_assoc. split; [reflexivity|].
    split; [simpl; lia|]. split; [|lia].
    constructor; [|exact Hwf].
    eexists _, _, _. cbn [itx_prev_tx_hash itx_script itx_seq_num].
    unfold byte_to_hex_string_little.
    split; [reflexivity|]. split; [|split; [reflexivity|split; [reflexivity|]]].
    + rewrite (slice_full block (nth_byte_of c) 32 (nth_byte_of c + 32 + 4));
        lia.
    + rewrite (slice_full block _ 4 (nth_byte_of c'));
        cbn [nth_byte_of]; lia.
Qed.

(** The transactions that a run of the loop adds, and the entries it adds to
    [txid_to_prev_hash]. *)
Definition record_txids (prev_hash : string) (txs : list Transaction)
    (m : gmap string string) : gmap string string :=
  fold_left (fun m tx => <[tx_hash tx := prev_hash]> m) txs m.

Lemma parse_transactions_Ret (block : list byte) (prev_hash : string)
    (n : nat) :
  forall s s' : tx_loop,
    0 <= tl_nth_byte s ->
    parse_transactions block prev_hash n s = Ret s' ->
    exists new,
      tl_transactions s' = tl_transactions s ++ new /\
      tl_tx_hashes s' = tl_tx_hashes s ++ map tx_hash new /\
      tl_txid_to_prev_hash s'
      = record_txids prev_hash new (tl_txid_to_prev_hash s) /\
      length new = n /\ Forall wf_tx new /\
      tl_nth_byte s <= tl_nth_byte s'.
Proof.
  induction n as [|n IH]; intros s s' Hs Hrun.
  - cbn [parse_transactions] in Hrun. injection Hrun as <-.
    exists []. rewrite !app_nil_r. repeat split; [constructor|lia].
  - cbn [parse_transactions] in Hrun. unfold take_field at 1 in Hrun.
    cbn zeta in Hrun. cbn [nth_byte_of raw_tx_data_of] in Hrun.
    destruct (take_var_len_int block _) as [[in_count c1]| |] eqn:Hic;
      cbn [mbind result_bind] in Hrun; try discriminate.
    destruct (parse_inputs block _ c1 []) as [[ins c2]| |] eqn:Hins;
      cbn [mbind result_bind] in Hrun; try discriminate.
    destruct (take_var_len_int block c2) as [[out_count c3]| |] eqn:Hoc;
      cbn [mbind result_bind] in Hrun; try discriminate.
    destruct (parse_outputs block _ c3 []) as [[outs c4]| |] eqn:Houts;
      cbn [mbind result_bind] in Hrun; try discriminate.
    unfold take_field in Hrun. cbn zeta in Hrun.
    cbn [nth_byte_of raw_tx_data_of] in Hrun.
    destruct (decode_hex _) as [raw| |] eqn:Hraw;
      cbn [mbind result_bind] in Hrun; try discriminate.
    apply take_var_len_int_Ret in Hic. cbn [nth_byte_of] in Hic.
    apply take_var_len_int_Ret in Hoc.
    apply parse_inputs_Ret in Hins; [|lia|lia].
    destruct Hins as (ins' & -> & Hilen & Hiwf & Hile).
    apply parse_outputs_Ret in Houts; [|lia].
    destruct Houts as (outs' & -> & Holen & Howf & Hole).
    apply IH in Hrun; [|cbn [tl_nth_byte]; lia].
    destruct Hrun as (new & Htx & Hh & Hm & Hlen & Hwf & Hle).
    cbn [tl_transactions tl_tx_hashes tl_txid_to_prev_hash tl_nth_byte]
      in Htx, Hh, Hm, Hle.
    eexists (_ :: new). rewrite <- app_assoc in Htx, Hh.
    split; [exact Htx|]. split; [exact Hh|]. split; [exact Hm|].
    split; [simpl; lia|]. split; [|lia].
    constructor; [|exact Hwf].
    unfold wf_tx.
    cbn [tx_hash tx_version input_tx_count input_txs output_tx_count
         output_txs locktime app].
    unfold byte_to_hex_string_little.
    split; [eexists; reflexivity|].
    split.
    { eexists. split; [reflexivity|].
      rewrite (slice_full block _ 4 (tl_nth_byte s + 4)); lia. }
    split; [lia|]. split; [exact Hiwf|].
    split; [lia|]. split; [exact Howf|].
    eexists; reflexivity.
Qed.

(** A block as the decoder builds it: complete header fields, one
    transaction or more, a verified Merkle root. The height is the one the
    constructor or the resolver gave it. *)
Definition wf_block (b : Block) : Prop :=
  (exists v p m t nb no : list byte,
     version b = hexlify v /\ length v = 4%nat /\
     previous_block_header_hash b = hexlify p /\ length p = 32%nat /\
     merkle_root_hash b = hexlify m /\ length m = 32%nat /\
     start_time b = hexlify t /\ length t = 4%nat /\
     nBits b = hexlify nb /\ length nb = 4%nat /\
     nonce b = hexlify no /\ length no = 4%nat) /\
  tx_count b = Z.of_nat (length (txs b)) /\
  (1 <= length (txs b))%nat /\
  Forall wf_tx (txs b) /\
  get_merkle_root (map tx_hash (txs b)) = Ret (merkle_root_hash b) /\
  0 <= height b.

Lemma wf_block_hash (b : Block) :
  wf_block b -> exists h, get_curr_hash_little b = Ret h.
Proof.
  intros ((v & p & m & t & nb & no & Hv & _ & Hp & _ & Hm & _ & Ht & _ &
           Hnb & _ & Hno & _) & _).
  unfold get_curr_hash_little, header_hex.
  rewrite Hv, Hp, Hm, Ht, Hnb, Hno, <- !hexlify_app, decode_hex_hexlify.
  cbn [mbind result_bind]. eexists; reflexivity.
Qed.

(** The blocks stored under a parent hash, the empty list when there is
    none. *)
Definition children_of (m : gmap string (list Block)) (prev_hash : string)
    : list Block :=
  default [] (m !! prev_hash).

Lemma parse_block_Ret (g g' : globals) (block : list byte)
    (nth_byte block_size : Z) :
  0 <= nth_byte ->
  parse_block g block nth_byte = Ret (block_size, g') ->
  exists (b : Block) (curr_hash : string),
    wf_block b /\ main_chain b = false /\ height b = 0 /\
    get_curr_hash_little b = Ret curr_hash /\
    prev_hash_to_blocks g'
    = <[previous_block_header_hash b :=
          children_of (prev_hash_to_blocks g) (previous_block_header_hash b)
          ++ [b]]> (prev_hash_to_blocks g) /\
    curr_hash_to_prev_hash g'
    = <[curr_hash := previous_block_header_hash b]> (curr_hash_to_prev_hash g) /\
    txid_to_prev_hash g'
    = record_txids (previous_block_header_hash b) (txs b) (txid_to_prev_hash g) /\
    block_count g' = block_count g /\
    blockchain_height g' = blockchain_height g /\
    latest_block_little g' = latest_block_little g /\
    0 <= block_size /\
    struct_unpack 4 (slice block (nth_byte + 4) (nth_byte + 4 + 4))
    = Ret block_size /\
    exists k, parse_var_len_int block (nth_byte + 88) = Ret (tx_count b, k).
Proof.
  intros Hn Hrun. unfold parse_block, assert in Hrun. cbn zeta in Hrun.
  destruct (bool_decide (byte_to_hex_string_big _ = _));
    cbn [mbind result_bind] in Hrun; try discriminate.
  destruct (struct_unpack 4 _) as [bsz| |] eqn:Hsize;
    cbn [mbind result_bind] in Hrun; try discriminate.
  destruct (parse_var_len_int block _) as [[txc k]| |] eqn:Hcount;
    cbn [mbind result_bind] in Hrun; try discriminate.
  destruct (parse_transactions _ _ _ _) as [s| |] eqn:Htxs;
    cbn [mbind result_bind] in Hrun; try discriminate.
  destruct (_ =? bsz) eqn:Hsz;
    cbn [mbind result_bind] in Hrun; try discriminate.
  destruct (get_merkle_root _) as [root| |] eqn:Hroot;
    cbn [mbind result_bind] in Hrun; try discriminate.
  destruct (bool_decide (_ = root)) eqn:Hmerk;
    cbn [mbind result_bind] in Hrun; try discriminate.
  apply bool_decide_eq_true in Hmerk.
  destruct (get_curr_hash_little _) as [curr_hash| |] eqn:Hhash;
    cbn [mbind result_bind] in Hrun; try discriminate.
  injection Hrun as <- <-.
  pose proof (parse_var_len_int_Ret _ _ _ _ Hcount) as (Htxc & Hk & Hbuf).
  apply parse_transactions_Ret in Htxs; [|cbn [tl_nth_byte]; lia].
  destruct Htxs as (new & Htx & Hh & Hm & Hlen & Hwf & Hle).
  cbn [tl_transactions tl_tx_hashes tl_txid_to_prev_hash tl_nth_byte app]
    in Htx, Hh, Hm, Hle.
  rewrite Hh in Hroot. rewrite Htx in Hhash |- *.
  match type of Hhash with
  | get_curr_hash_little ?b = _ => exists b, curr_hash
  end.
  split; [|split; [reflexivity|split; [reflexivity|split; [exact Hhash|]]]].
  - unfold wf_block.
    cbn [version previous_block_header_hash merkle_root_hash start_time
         nBits nonce tx_count txs height].
    unfold byte_to_hex_string_little.
    split.
    { eexists _, _, _, _, _, _.
      repeat (split; [reflexivity|]).
      let full w :=
        rewrite (slice_full block _ w (nth_byte + 4 + 4 + 4 + 32 + 32 + 4 + 4 + 4));
        lia in
      repeat split;
        first [reflexivity | full 4 | full 32]. }
    split; [lia|]. split.
    { pose proof (get_merkle_root_Ret_nonempty _ _ Hroot) as Hne.
      destruct new; [exfalso; apply Hne; reflexivity|simpl; lia]. }
    split; [exact Hwf|]. split; [|lia].
    rewrite Hroot. f_equal. symmetry. exact Hmerk.
  - cbn [previous_block_header_hash txs prev_hash_to_blocks
         curr_hash_to_prev_hash txid_to_prev_hash block_count
         blockchain_height latest_block_little tx_count].
    split.
    { unfold children_of. f_equal. destruct (_ !! _); reflexivity. }
    split; [reflexivity|]. split; [exact Hm|].
    repeat (split; [reflexivity|]).
    split.
    { pose proof Hsize as Hs. unfold struct_unpack in Hs.
      case_decide; [|discriminate].
      injection Hs as <-. apply le_to_Z_range. }
    split; [reflexivity|].
    exists k. rewrite <- Hcount. f_equal. lia.
Qed.



(** C10. [get_merkle_root] ends on every non-empty list: with a bound of the
    length of the list or more the bounded recursion does not run out, and
    gives the same result whatever the bound; each nested call is on the
    list of half the padded length, which is non-empty and strictly shorter.
    On the empty list it never ends, whatever the bound. So a record that
    [parse_block] accepts has a transaction count of 1 or more. *)
Theorem get_merkle_root_terminates :
  (forall l : list string,
     l <> [] ->
     get_merkle_root l <> Diverge /\
     forall fuel, (length l <= fuel)%nat ->
       get_merkle_root_fuel fuel l = get_merkle_root l) /\
  (forall l padded parents : list string,
     (2 <= length l)%nat ->
     merkle_pad l = Ret padded ->
     merkle_pairs padded (length padded / 2) 0 [] = Ret parents ->
     length parents = (length padded / 2)%nat /\
     (1 <= length parents < length l)%nat) /\
  (forall fuel, get_merkle_root_fuel fuel [] = Diverge) /\
  (forall (g g' : globals) (block : list byte)
          (nth_byte block_size count k : Z),
     0 <= nth_byte ->
     parse_var_len_int block (nth_byte + 88) = Ret (count, k) ->
     parse_block g block nth_byte = Ret (block_size, g') ->
     1 <= count).
Proof.
  split; [|split; [|split]].
  - intros l Hne.
    assert (Hlen : (1 <= length l <= S (length l))%nat).
    { destruct l; [congruence|simpl; lia]. }
    destruct (get_merkle_root_fuel_enough _ l Hlen) as [Hnd Hsame].
    split; [exact Hnd|]. intros fuel Hfuel. apply Hsame. exact Hfuel.
  - intros l padded parents Hn Hpad Hpairs. split.
    + apply merkle_pairs_length in Hpairs. exact Hpairs.
    + eapply merkle_step_shorter; eassumption.
  - apply get_merkle_root_fuel_nil.
  - intros g g' block nth_byte block_size count k Hn Hcount Hrun.
    destruct (parse_block_Ret _ _ _ _ _ Hn Hrun)
      as (b & curr_hash & Hwf & _ & _ & _ & _ & _ & _ & _ & _ & _ & _ & _ & k' & Hc).
    rewrite Hcount in Hc. injection Hc as -> _.
    destruct Hwf as (_ & Hcnt & Hpos & _). lia.
Qed.

(** ** The request check of [do_GET] *)













(** ** [load_file] *)

(** The size field of the record at offset [o]. *)
Definition size_field (data : list byte) (o : Z) : result Z :=
  struct_unpack 4 (slice data (o + 4) (o + 4 + 4)).

(** [record_chain data file_end o offsets]: [offsets] starts at [o], each
    next offset is the one before plus 4, the size field there and 4, one
    more record is read when more than 88 bytes remain after the advance,
    and the last record is the first one with 88 bytes or fewer after
    it. *)
Inductive record_chain (data : list byte) (file_end : Z)
    : Z -> list Z -> Prop :=
| chain_last (o block_size : Z) :
    size_field data o = Ret block_size ->
    file_end - (o + (4 + block_size + 4)) <= 88 ->
    record_chain data file_end o [o]
| chain_next (o block_size : Z) (rest : list Z) :
    size_field data o = Ret block_size ->
    file_end - (o + (4 + block_size + 4)) > 88 ->
    record_chain data file_end (o + (4 + block_size + 4)) rest ->
    record_chain data file_end o (o :: rest).

Lemma load_file_loop_Ret (data : list byte) (file_end : Z) (fuel : nat) :
  forall (g g' : globals) (header_start : Z) (offs offsets : list Z),
    0 <= header_start ->
    load_file_loop fuel data file_end g header_start offs = Ret (g', offsets) ->
    exists new,
      offsets = offs ++ new /\
      record_chain data file_end header_start new /\
      block_count g' = block_count g + Z.of_nat (length new).
Proof.
  induction fuel as [|fuel IH]; intros g g' hs offs offsets Hhs Hrun;
    [discriminate|].
  cbn [load_file_loop] in Hrun.
  destruct (parse_block g data hs) as [[block_size g1]| |] eqn:Hparse;
    cbn [mbind result_bind] in Hrun; try discriminate.
  destruct (parse_block_Ret _ _ _ _ _ Hhs Hparse)
    as (b & h & _ & _ & _ & _ & _ & _ & _ & Hcount & _ & _ & Hsize & Hfield & _).
  destruct (hs + (4 + block_size + 4) + (4 + 4 + 80) >=? file_end) eqn:Hend.
  - injection Hrun as <- <-. exists [hs]. split; [reflexivity|].
    split; [|cbn; lia].
    apply (chain_last _ _ _ block_size); [exact Hfield|lia].
  - apply IH in Hrun; [|lia].
    destruct Hrun as (new & -> & Hchain & Hbc).
    exists (hs :: new). rewrite <- app_assoc. split; [reflexivity|].
    split.
    + apply (chain_next _ _ _ block_size); [exact Hfield|lia|exact Hchain].
    + cbn [block_count set_block_count length] in Hbc |- *. lia.
Qed.

(** The bound on the turns of the loop is never the reason for the end: a
    greater bound gives the same run. *)
Lemma load_file_loop_fuel (data : list byte) (file_end : Z) (fuel : nat) :
  forall (fuel' : nat) (g : globals) (header_start : Z) (offs : list Z),
    0 <= header_start ->
    (0 < fuel)%nat -> (0 < fuel')%nat ->
    file_end - header_start < Z.of_nat fuel ->
    file_end - header_start < Z.of_nat fuel' ->
    load_file_loop fuel data file_end g header_start offs
    = load_file_loop fuel' data file_end g header_start offs.
Proof.
  induction fuel as [|fuel IH]; intros fuel' g hs offs Hhs Hf Hf' Hb Hb';
    [lia|].
  destruct fuel' as [|fuel']; [lia|].
  cbn [load_file_loop].
  destruct (parse_block g data hs) as [[block_size g1]| |] eqn:Hparse;
    cbn [mbind result_bind]; try reflexivity.
  destruct (parse_block_Ret _ _ _ _ _ Hhs Hparse)
    as (b & h & _ & _ & _ & _ & _ & _ & _ & _ & _ & _ & Hsize & _).
  destruct (hs + (4 + block_size + 4) + (4 + 4 + 80) >=? file_end) eqn:Hend;
    [reflexivity|].
  apply IH; lia.
Qed.

(** C6, as the code has it. In one file the decoder moves from one record to
    the next by exactly 4 + block_size + 4 bytes; it reads one more record
    when more than 88 bytes remain after the advance and ends with the file
    when 88 bytes or fewer remain; the number of records read is added to
    [block_count]; and the bound of the model on the number of records is
    never reached. *)
Theorem load_file_offsets (g g' : globals) (data : list byte)
    (offsets : list Z)
    (Hrun : load_file_trace g data = Ret (g', offsets)) :
  record_chain data (Z.of_nat (length data)) 0 offsets /\
  block_count g' = block_count g + Z.of_nat (length offsets) /\
  load_file g data = Ret g' /\
  forall fuel, (length data < fuel)%nat ->
    load_file_loop fuel data (Z.of_nat (length data)) g 0 []
    = Ret (g', offsets).
Proof.
  unfold load_file. rewrite Hrun. unfold load_file_trace in Hrun.
  destruct (load_file_loop_Ret _ _ _ _ _ _ _ _ (Z.le_refl 0) Hrun)
    as (new & Heq & Hchain & Hbc).
  cbn [app] in Heq. subst new.
  split; [exact Hchain|]. split; [exact Hbc|].
  split; [reflexivity|].
  intros fuel Hfuel. rewrite <- Hrun.
  apply load_file_loop_fuel; lia.
Qed.

(** C6, as stated, fails: when exactly 88 bytes remain after a record, the
    decoder reads no other record. The file is the record of the genesis
    block and 88 more bytes. *)
Lemma load_file_stops_with_88_left :
  ~ (forall (g : globals) (data : list byte),
       match load_file_trace g data with
       | Ret (_, offsets) =>
           forall o block_size,
             last offsets = Some o ->
             size_field data o = Ret block_size ->
             Z.of_nat (length data) - (o + (4 + block_size + 4)) < 88
       | _ => True
       end).
Proof.
  intros H.
  specialize (H initial_globals (genesis_record ++ replicate 88 x00)).
  vm_compute in H.
  specialize (H 0 285 eq_refl eq_refl). discriminate H.
Qed.

(** ** The breadth-first search *)

(** The distances that a list of discoveries records. *)
Definition record_discoveries (evs : list discovery) (d : gmap string Z)
    : gmap string Z :=
  fold_left (fun d e => <[ev_hash e := ev_distance e]> d) evs d.

(** The update of [(max_hash, max_distance)] at one discovery: a strictly
    greater distance replaces the pair. *)
Definition best_step (best : string * Z) (e : discovery) : string * Z :=
  if ev_distance e >? snd best then (ev_hash e, ev_distance e) else best.

Definition best_of (evs : list discovery) (init : string * Z) : string * Z :=
  fold_left best_step evs init.

(** What one run of [for block in blocks] does to a block: nothing, or
    [set_height]. *)
Definition height_update (h : Z) (b b' : Block) : Prop :=
  b' = b \/ b' = set_height b h.

Lemma get_curr_hash_little_set_height (b : Block) (h : Z) :
  get_curr_hash_little (set_height b h) = get_curr_hash_little b.
Proof. reflexivity. Qed.

Lemma get_curr_hash_little_set_main_chain (b : Block) :
  get_curr_hash_little (set_main_chain b) = get_curr_hash_little b.
Proof. reflexivity. Qed.

Lemma record_discoveries_lookup_None (evs : list discovery)
    (d : gmap string Z) (h : string) :
  d !! h = None ->
  Forall (fun e => ev_hash e <> h) evs ->
  record_discoveries evs d !! h = None.
Proof.
  revert d. induction evs as [|e evs IH]; intros d Hd Hne; [exact Hd|].
  inversion Hne as [|? ? He Hrest]; subst. cbn [record_discoveries fold_left].
  apply IH; [|exact Hrest]. rewrite lookup_insert_ne by exact He. exact Hd.
Qed.

Lemma record_discoveries_lookup_other (evs : list discovery)
    (d : gmap string Z) (h : string) :
  Forall (fun e => ev_hash e <> h) evs ->
  record_discoveries evs d !! h = d !! h.
Proof.
  revert d. induction evs as [|e evs IH]; intros d Hne; [reflexivity|].
  inversion Hne as [|? ? He Hrest]; subst. cbn [record_discoveries fold_left].
  fold (record_discoveries evs (<[ev_hash e := ev_distance e]> d)).
  rewrite IH by exact Hrest. apply lookup_insert_ne. exact He.
Qed.

Lemma visit_blocks_spec (k : string) (dk : Z) (blocks : list Block) :
  forall (i : nat) (s s' : bfs_state) (blocks' : list Block),
    visit_blocks k blocks i s = Ret (blocks', s') ->
    distances s !! k = Some dk ->
    exists evs,
      discovered s' = discovered s ++ evs /\
      queue s' = queue s ++ map ev_hash evs /\
      distances s' = record_discoveries evs (distances s) /\
      (max_hash s', max_distance s')
      = best_of evs (max_hash s, max_distance s) /\
      NoDup (map ev_hash evs) /\
      Forall (fun e =>
                ev_parent e = k /\ ev_distance e = dk + 1 /\
                distances s !! ev_hash e = None /\
                (i <= ev_index e < i + length blocks)%nat) evs /\
      StronglySorted lt (map ev_index evs) /\
      Forall2 (height_update (dk + 1 - 1)) blocks blocks' /\
      Forall (fun e =>
                exists b,
                  blocks !! (ev_index e - i)%nat = Some b /\
                  get_curr_hash_little b = Ret (ev_hash e) /\
                  blocks' !! (ev_index e - i)%nat
                  = Some (set_height b (ev_distance e - 1))) evs.
Proof.
  induction blocks as [|block rest IH]; intros i s s' blocks' Hrun Hk.
  - cbn [visit_blocks] in Hrun. injection Hrun as <- <-.
    exists []. cbn. rewrite !app_nil_r.
    repeat split; constructor.
  - cbn [visit_blocks] in Hrun.
    destruct (get_curr_hash_little block) as [next_hash| |] eqn:Hhash;
      cbn [mbind result_bind] in Hrun; try discriminate.
    destruct (distances s !! next_hash) as [dn|] eqn:Hseen.
    + destruct (visit_blocks k rest (S i) s) as [[rest' s1]| |] eqn:Hrest;
        cbn [mbind result_bind] in Hrun; try discriminate.
      injection Hrun as <- <-.
      destruct (IH _ _ _ _ Hrest Hk)
        as (evs & Hd & Hq & Hdist & Hbest & Hnd & Hall & Hsort & Hupd & Hpos).
      exists evs. repeat (split; [assumption|]).
      split; [|split; [|split]]; [|exact Hsort| |].
      * eapply Forall_impl; [exact Hall|]. cbn [length].
        intros e (? & ? & ? & ?). repeat split; try assumption; lia.
      * constructor; [left; reflexivity|exact Hupd].
      * rewrite Forall_forall in Hall, Hpos |- *. intros e He.
        destruct (Hpos e He) as (b & Hb & Hbh & Hb').
        destruct (Hall e He) as (_ & _ & _ & Hidx).
        exists b. replace (ev_index e - i)%nat with (S (ev_index e - S i)) by lia.
        cbn [lookup list_lookup]. repeat split; assumption.
    + unfold getitem in Hrun. rewrite Hk in Hrun.
      cbn [mbind result_bind] in Hrun.
      set (ev := Discovery k i next_hash (dk + 1)) in *.
      set (s1 := if dk + 1 >? max_distance s then _ else _) in Hrun.
      destruct (visit_blocks k rest (S i) s1) as [[rest' s2]| |] eqn:Hrest;
        cbn [mbind result_bind] in Hrun; try discriminate.
      injection Hrun as <- <-.
      assert (Hne : next_hash <> k) by congruence.
      assert (Hs1 : discovered s1 = discovered s ++ [ev] /\
                    queue s1 = queue s ++ [next_hash] /\
                    distances s1 = <[next_hash := dk + 1]> (distances s) /\
                    (max_hash s1, max_distance s1)
                    = best_step (max_hash s, max_distance s) ev).
      { subst s1. unfold best_step. cbn [ev_distance ev_hash snd ev].
        destruct (dk + 1 >? max_distance s); repeat split. }
      destruct Hs1 as (Hd1 & Hq1 & Hdist1 & Hbest1).
      assert (Hk1 : distances s1 !! k = Some dk).
      { rewrite Hdist1, lookup_insert_ne by exact Hne. exact Hk. }
      destruct (IH _ _ _ _ Hrest Hk1)
        as (evs & Hd & Hq & Hdist & Hbest & Hnd & Hall & Hsort & Hupd & Hpos).
      assert (Hfresh : Forall (fun e => ev_hash e <> next_hash) evs).
      { eapply Forall_impl; [exact Hall|].
        intros e (_ & _ & Hnone & _) Heq. rewrite Heq, Hdist1 in Hnone.
        rewrite lookup_insert_eq in Hnone. discriminate. }
      exists (ev :: evs).
      split; [rewrite Hd, Hd1, <- app_assoc; reflexivity|].
      split; [rewrite Hq, Hq1, <- app_assoc; reflexivity|].
      split; [rewrite Hdist, Hdist1; reflexivity|].
      split; [rewrite Hbest, Hbest1; reflexivity|].
      split.
      { cbn [map]. constructor; [|exact Hnd].
        rewrite list_elem_of_fmap. intros (e & Heq & He).
        rewrite Forall_forall in Hfresh. apply (Hfresh e He). symmetry.
        exact Heq. }
      split.
      { constructor.
        - cbn [ev_parent ev_distance ev_hash ev_index ev length].
          repeat split; try assumption; lia.
        - eapply Forall_impl; [exact Hall|]. cbn [length].
          intros e (? & ? & Hnone & ?).
          rewrite Hdist1 in Hnone. apply lookup_insert_None in Hnone.
          repeat split; try assumption; try tauto; lia. }
      split.
      { cbn [map]. constructor; [exact Hsort|].
        rewrite Forall_forall. intros j Hj.
        apply list_elem_of_fmap in Hj as (e & -> & He).
        rewrite Forall_forall in Hall. destruct (Hall e He) as (_ & _ & _ & Hidx).
        cbn [ev_index ev]. lia. }
      split.
      { constructor; [right; reflexivity|exact Hupd]. }
      constructor.
      * exists block. cbn [ev_index ev_hash ev_distance ev].
        replace (i - i)%nat with 0%nat by lia.
        split; [reflexivity|]. split; [exact Hhash|reflexivity].
      * rewrite Forall_forall in Hall, Hpos |- *. intros e He.
        destruct (Hpos e He) as (b & Hb & Hbh & Hb').
        destruct (Hall e He) as (_ & _ & _ & Hidx).
        exists b. replace (ev_index e - i)%nat with (S (ev_index e - S i)) by lia.
        cbn [lookup list_lookup]. repeat split; assumption.
Qed.

Lemma record_discoveries_lookup_Some (evs : list discovery)
    (d : gmap string Z) (h : string) (x : Z) :
  record_discoveries evs d !! h = Some x ->
  (exists e, e ∈ evs /\ ev_hash e = h /\ ev_distance e = x) \/ d !! h = Some x.
Proof.
  revert d. induction evs as [|e evs IH]; intros d Hx; [right; exact Hx|].
  cbn [record_discoveries fold_left] in Hx.
  destruct (IH _ Hx) as [(e' & He' & Hh & Hd)|Hd].
  - left. exists e'. split; [right; exact He'|]. split; assumption.
  - destruct (decide (ev_hash e = h)) as [Heq|Hne].
    + rewrite Heq, lookup_insert_eq in Hd. injection Hd as <-.
      left. exists e. split; [left|]. split; [exact Heq|reflexivity].
    + rewrite lookup_insert_ne in Hd by exact Hne. right. exact Hd.
Qed.

Lemma record_discoveries_lookup_elem (evs : list discovery)
    (d : gmap string Z) (e : discovery) :
  NoDup (map ev_hash evs) -> e ∈ evs ->
  record_discoveries evs d !! ev_hash e = Some (ev_distance e).
Proof.
  revert d. induction evs as [|e0 evs IH]; intros d Hnd He.
  - apply elem_of_nil in He. contradiction.
  - cbn [map] in Hnd. apply NoDup_cons in Hnd as [Hnotin Hnd].
    cbn [record_discoveries fold_left].
    apply elem_of_cons in He as [->|He].
    + fold (record_discoveries evs (<[ev_hash e0 := ev_distance e0]> d)).
      rewrite record_discoveries_lookup_other; [apply lookup_insert_eq|].
      rewrite Forall_forall. intros e' He' Heq. apply Hnotin.
      rewrite <- Heq. apply list_elem_of_fmap. exists e'. split; [reflexivity|exact He'].
    + apply IH; assumption.
Qed.

(** The relation between a block before the search and after some turns of
    it: the same block, possibly with a height that is not negative. *)
Definition height_set (b0 b : Block) : Prop :=
  b = b0 \/ exists h, 0 <= h /\ b = set_height b0 h.

Definition blocks_related (P : Block -> Block -> Prop)
    (m0 m : gmap string (list Block)) : Prop :=
  forall k, option_Forall2 (Forall2 P) (m0 !! k) (m !! k).

(** Two discoveries under the same parent are in the order of the list
    stored under it. *)
Definition index_order (e1 e2 : discovery) : Prop :=
  ev_parent e1 = ev_parent e2 -> (ev_index e1 < ev_index e2)%nat.

(** The invariant of the loop [while len(queue) != 0], for the index [m0]
    the search started on. *)
Record bfs_inv (m0 m : gmap string (list Block)) (s : bfs_state) : Prop := {
  inv_source : distances s !! source_hash = Some 0;
  inv_nonneg : forall h d, distances s !! h = Some d -> 0 <= d;
  inv_dom : forall h d, distances s !! h = Some d ->
    (h = source_hash /\ d = 0) \/
    (exists e, e ∈ discovered s /\ ev_hash e = h /\ ev_distance e = d);
  inv_queue_nodup : NoDup (queue s);
  inv_queue_dom : forall k, k ∈ queue s -> is_Some (distances s !! k);
  inv_parent_done : forall e, e ∈ discovered s -> ev_parent e ∉ queue s;
  inv_events : forall e, e ∈ discovered s ->
    distances s !! ev_hash e = Some (ev_distance e) /\
    distances s !! ev_parent e = Some (ev_distance e - 1) /\
    exists blocks b,
      m !! ev_parent e = Some blocks /\
      blocks !! ev_index e = Some b /\
      get_curr_hash_little b = Ret (ev_hash e) /\
      height b = ev_distance e - 1;
  inv_best : (max_hash s, max_distance s) = best_of (discovered s) ("", -1);
  inv_order : StronglySorted index_order (discovered s);
  inv_nodup_hash : NoDup (map ev_hash (discovered s));
  inv_related : blocks_related height_set m0 m
}.

Lemma bfs_inv_init (m : gmap string (list Block)) : bfs_inv m m bfs_init.
Proof.
  split; cbn [bfs_init distances queue discovered max_hash max_distance].
  - apply lookup_singleton_eq.
  - intros h d Hd. apply lookup_singleton_Some in Hd as [_ <-]. lia.
  - intros h d Hd. apply lookup_singleton_Some in Hd as [<- <-].
    left. split; reflexivity.
  - apply NoDup_singleton.
  - intros k Hk. apply list_elem_of_singleton in Hk as ->.
    rewrite lookup_singleton_eq. eexists; reflexivity.
  - intros e He. apply elem_of_nil in He. contradiction.
  - intros e He. apply elem_of_nil in He. contradiction.
  - reflexivity.
  - constructor.
  - constructor.
  - intros k. destruct (m !! k) as [bs|]; constructor.
    apply Forall2_same_length_lookup_2; [reflexivity|].
    intros i b b' Hb Hb'. left. congruence.
Qed.

Lemma record_discoveries_lookup_mono (evs : list discovery)
    (d : gmap string Z) (h : string) :
  is_Some (d !! h) -> is_Some (record_discoveries evs d !! h).
Proof.
  revert d. induction evs as [|e evs IH]; intros d Hd; [exact Hd|].
  cbn [record_discoveries fold_left]. apply IH.
  destruct (decide (ev_hash e = h)) as [->|Hne].
  - rewrite lookup_insert_eq. eexists; reflexivity.
  - rewrite lookup_insert_ne by exact Hne. exact Hd.
Qed.

Lemma index_order_sorted (evs : list discovery) :
  StronglySorted lt (map ev_index evs) -> StronglySorted index_order evs.
Proof.
  induction evs as [|e evs IH]; cbn [map]; intros Hs; [constructor|].
  apply StronglySorted_inv in Hs as [Hs Hall]. constructor; [exact (IH Hs)|].
  apply Forall_forall. intros e' He' _.
  apply (proj1 (Forall_forall _ _) Hall). apply list_elem_of_fmap. exists e'. split; [reflexivity|exact He'].
Qed.

Lemma height_set_update (dk : Z) (bs0 bs bs' : list Block) :
  0 <= dk ->
  Forall2 height_set bs0 bs ->
  Forall2 (height_update dk) bs bs' ->
  Forall2 height_set bs0 bs'.
Proof.
  intros Hdk H1. revert bs'.
  induction H1 as [|b0 b bs0 bs Hb _ IH]; intros bs' H2;
    inversion H2 as [|? b' ? bs'' Hb' Hrest]; subst; constructor.
  - destruct Hb' as [->| ->]; [exact Hb|].
    right. exists dk. split; [exact Hdk|].
    destruct Hb as [->|(h & _ & ->)]; reflexivity.
  - apply IH. exact Hrest.
Qed.

Lemma bfs_inv_visit (m0 m : gmap string (list Block)) (s s' : bfs_state)
    (k : string) (blocks blocks' : list Block) :
  bfs_inv m0 m s ->
  k ∉ queue s ->
  (forall e, e ∈ discovered s -> ev_parent e <> k) ->
  is_Some (distances s !! k) ->
  m !! k = Some blocks ->
  visit_blocks k blocks 0 s = Ret (blocks', s') ->
  bfs_inv m0 (<[k := blocks']> m) s'.
Proof.
  intros [Hsrc Hnn Hdom Hqnd Hqdom Hpar Hev Hbest0 Hord Hndh Hrel]
    Hkq Hkpar [dk Hk] Hmk Hrun.
  destruct (visit_blocks_spec _ _ _ _ _ _ _ Hrun Hk)
    as (evs & Hd & Hq & Hdist & Hbest & Hnd & Hall & Hsort & Hupd & Hpos).
  pose proof (proj1 (Forall_forall _ _) Hall) as Hall'.
  pose proof (proj1 (Forall_forall _ _) Hpos) as Hpos'.
  clear Hall Hpos. rename Hall' into Hall. rename Hpos' into Hpos.
  assert (Hdk : 0 <= dk) by (eapply Hnn; exact Hk).
  assert (Hfresh : forall h, is_Some (distances s !! h) ->
                             Forall (fun e => ev_hash e <> h) evs).
  { intros h [x Hx]. rewrite Forall_forall. intros e He Heq.
    destruct (Hall e He) as (_ & _ & Hnone & _). congruence. }
  assert (Hnew : forall h, h ∈ map ev_hash evs -> distances s !! h = None).
  { intros h Hh. apply list_elem_of_fmap in Hh as (e & -> & He).
    apply (Hall e He). }
  split.
  - rewrite Hdist, record_discoveries_lookup_other; [exact Hsrc|].
    apply Hfresh. eexists; exact Hsrc.
  - intros h d. rewrite Hdist. intros Hh.
    apply record_discoveries_lookup_Some in Hh as [(e & He & _ & <-)|Hh].
    + destruct (Hall e He) as (_ & -> & _). lia.
    + eapply Hnn; exact Hh.
  - intros h d. rewrite Hdist, Hd. intros Hh.
    apply record_discoveries_lookup_Some in Hh as [(e & He & Hh & Hx)|Hh].
    + right. exists e. split; [apply elem_of_app; right; exact He|].
      split; assumption.
    + destruct (Hdom _ _ Hh) as [?|(e & He & ? & ?)]; [left; assumption|].
      right. exists e. split; [apply elem_of_app; left; exact He|].
      split; assumption.
  - rewrite Hq. apply NoDup_app. split; [exact Hqnd|]. split; [|exact Hnd].
    intros x Hx Hx'. destruct (Hqdom x Hx) as [d Hxd].
    rewrite (Hnew x Hx') in Hxd. discriminate.
  - intros x. rewrite Hq, Hdist. intros [Hx|Hx]%elem_of_app.
    + apply record_discoveries_lookup_mono. apply Hqdom. exact Hx.
    + apply list_elem_of_fmap in Hx as (e & -> & He).
      rewrite (record_discoveries_lookup_elem _ _ _ Hnd He).
      eexists; reflexivity.
  - intros e. rewrite Hd, Hq. intros [He|He]%elem_of_app Hin.
    + apply elem_of_app in Hin as [Hin|Hin]; [exact (Hpar e He Hin)|].
      destruct (Hev e He) as (_ & Hp & _). rewrite (Hnew _ Hin) in Hp.
      discriminate.
    + destruct (Hall e He) as (Hp & _). rewrite Hp in Hin.
      apply elem_of_app in Hin as [Hin|Hin]; [exact (Hkq Hin)|].
      rewrite (Hnew _ Hin) in Hk. discriminate.
  - intros e. rewrite Hd, Hdist. intros [He|He]%elem_of_app.
    + destruct (Hev e He) as (Hh & Hp & bs & b & Hbs & Hb & Hbh & Hbd).
      rewrite !record_discoveries_lookup_other
        by (apply Hfresh; eexists; eassumption).
      split; [exact Hh|]. split; [exact Hp|].
      exists bs, b. rewrite lookup_insert_ne by (intros Heq; exact (Hkpar e He (eq_sym Heq))).
      repeat split; assumption.
    + destruct (Hall e He) as (Hp & He_d & Hnone & Hidx).
      destruct (Hpos e He) as (b & Hb & Hbh & Hb').
      rewrite Nat.sub_0_r in Hb, Hb'.
      split; [apply record_discoveries_lookup_elem; assumption|].
      split.
      { rewrite Hp, record_discoveries_lookup_other
          by (apply Hfresh; eexists; exact Hk).
        rewrite Hk, He_d. f_equal. lia. }
      exists blocks', (set_height b (ev_distance e - 1)).
      rewrite Hp, lookup_insert_eq.
      repeat split; [exact Hb'|exact Hbh].
  - rewrite Hbest, Hd, Hbest0. unfold best_of. rewrite fold_left_app.
    reflexivity.
  - rewrite Hd. apply StronglySorted_app_2;
      [|exact Hord|apply index_order_sorted; exact Hsort].
    intros x1 x2 Hx1 Hx2 Heq. exfalso.
    destruct (Hall x2 Hx2) as (Hp & _). apply (Hkpar x1 Hx1). congruence.
  - rewrite Hd, map_app. apply NoDup_app. split; [exact Hndh|].
    split; [|exact Hnd].
    intros x Hx Hx'. apply list_elem_of_fmap in Hx as (e & -> & He).
    destruct (Hev e He) as (Hh & _). rewrite (Hnew _ Hx') in Hh.
    discriminate.
  - intros k'. destruct (decide (k = k')) as [<-|Hne].
    + rewrite lookup_insert_eq. specialize (Hrel k). rewrite Hmk in Hrel.
      inversion Hrel as [bs0 ? Hbs0|]; subst. constructor.
      eapply height_set_update; [|exact Hbs0|exact Hupd]. lia.
    + rewrite lookup_insert_ne by exact Hne. apply Hrel.
Qed.

Lemma bfs_inv_pop (m0 m : gmap string (list Block)) (s : bfs_state)
    (k : string) (q' : list string) :
  bfs_inv m0 m s ->
  queue s = k :: q' ->
  bfs_inv m0 m
    (BfsState q' (distances s) (max_distance s) (max_hash s) (discovered s)) /\
  (k ∉ q') /\
  (forall e, e ∈ discovered s -> ev_parent e <> k) /\
  is_Some (distances s !! k).
Proof.
  intros [Hsrc Hnn Hdom Hqnd Hqdom Hpar Hev Hbest0 Hord Hndh Hrel] Hq.
  rewrite Hq in Hqnd, Hqdom, Hpar. apply NoDup_cons in Hqnd as [Hk Hqnd].
  split; [|split; [exact Hk|split]].
  - split; cbn [distances queue discovered max_hash max_distance];
      try assumption.
    + intros x Hx. apply Hqdom. right. exact Hx.
    + intros e He Hin. apply (Hpar e He). right. exact Hin.
  - intros e He Heq. apply (Hpar e He). rewrite Heq. left.
  - apply Hqdom. left.
Qed.

Lemma bfs_loop_inv (m0 : gmap string (list Block)) (fuel : nat) :
  forall (m m' : gmap string (list Block)) (s s' : bfs_state),
    bfs_inv m0 m s ->
    bfs_loop fuel m s = Ret (m', s') ->
    bfs_inv m0 m' s' /\ queue s' = [].
Proof.
  induction fuel as [|fuel IH]; intros m m' s s' Hinv Hrun; [discriminate|].
  cbn [bfs_loop] in Hrun.
  destruct (queue s) as [|k q'] eqn:Hq.
  - injection Hrun as <- <-. split; [exact Hinv|exact Hq].
  - destruct (bfs_inv_pop _ _ _ _ _ Hinv Hq) as (Hinv' & Hk & Hpar & Hdk).
    destruct (m !! k) as [blocks|] eqn:Hmk.
    + destruct (visit_blocks k blocks 0 _) as [[blocks' s1]| |] eqn:Hvisit;
        cbn [mbind result_bind] in Hrun; try discriminate.
      apply (IH _ _ _ _ (bfs_inv_visit _ _ _ _ _ _ _ Hinv' Hk Hpar Hdk Hmk Hvisit)).
      exact Hrun.
    + apply (IH _ _ _ _ Hinv' Hrun).
Qed.

Lemma bfs_run_inv (m m' : gmap string (list Block)) (s : bfs_state) :
  bfs_run m = Ret (m', s) -> bfs_inv m m' s /\ queue s = [].
Proof.
  intros Hrun. eapply bfs_loop_inv; [apply bfs_inv_init|exact Hrun].
Qed.





(** ** The marking of the main chain on an index with two blocks under the
    sentinel *)

(** The coinbase transaction of the genesis block. *)
Definition genesis_tx : list byte := drop 89 genesis_record.

(** A record with the header fields of the genesis block except the
    previous hash and the nonce, and its one transaction. *)
Definition make_record (prev_hash nonce : list byte) : list byte :=
  unhex "f9beb4d9" ++ unhex "1d010000" ++
  unhex "01000000" ++ prev_hash ++ double_sha256 genesis_tx ++
  unhex "29ab5f49" ++ unhex "ffff001d" ++ nonce ++
  unhex "01" ++ genesis_tx.

(** The header hash of the record at the start of a buffer. *)
Definition record_hash (record : list byte) : list byte :=
  double_sha256 (slice record 8 88).

(** A second block under the sentinel, and a block on top of it. *)
Definition rival_record : list byte :=
  make_record (replicate 32 x00) (unhex "00000000").

Definition child_record : list byte :=
  make_record (record_hash rival_record) (unhex "00000000").

(** One file: the genesis block, the rival of the genesis block, the child
    of the rival. *)
Definition fork_file : list byte :=
  genesis_record ++ rival_record ++ child_record.

Definition rival_hash_little : string := hexlify (record_hash rival_record).
Definition rival_hash_big : string := hexlify (rev (record_hash rival_record)).
Definition child_hash_little : string := hexlify (record_hash child_record).
Definition child_hash_big : string := hexlify (rev (record_hash child_record)).

(** C2, on this file. [setup] returns; the tip is the child, at height 1;
    the walk from the tip along [curr_hash_to_prev_hash] visits the child and
    then the rival, and ends at the sentinel, two blocks for a height of 1.
    The child is flagged, but the rival, the second block of the walk, is
    not: the last step of [setup] flags [blocks[0]], the first block stored
    under the sentinel, which is the genesis block and is not on the walk. *)
Theorem setup_two_genesis_blocks :
  match setup [fork_file] with
  | Ret g =>
      get_latest_block g = Ret child_hash_big /\
      get_latest_height g = 1 /\
      curr_hash_to_prev_hash g !! child_hash_little = Some rival_hash_little /\
      curr_hash_to_prev_hash g !! rival_hash_little = Some source_hash /\
      get_main_chain g child_hash_big = Ret true /\
      get_main_chain g rival_hash_big = Ret false /\
      get_block_height g rival_hash_big = Ret 0 /\
      get_main_chain g genesis_hash_big = Ret true /\
      curr_hash_to_prev_hash g !! genesis_hash_little = Some source_hash /\
      genesis_hash_little <> rival_hash_little /\
      genesis_hash_little <> child_hash_little
  | _ => False
  end.
Proof. vm_compute. repeat split; discriminate. Qed.

(** ** The invariant of the index *)

(** What ingestion establishes and resolution keeps: the blocks stored under
    a key are blocks of the decoder with this previous hash; a known header
    hash and a known txid lead to a stored block. *)
Record wf_index (m : gmap string (list Block))
    (c2p t2p : gmap string string) : Prop := {
  wf_blocks : forall k blocks b,
    m !! k = Some blocks -> b ∈ blocks ->
    wf_block b /\ previous_block_header_hash b = k;
  wf_curr : forall h p,
    c2p !! h = Some p ->
    exists blocks b,
      m !! p = Some blocks /\ b ∈ blocks /\ get_curr_hash_little b = Ret h;
  wf_txid : forall t p,
    t2p !! t = Some p ->
    exists blocks b tx,
      m !! p = Some blocks /\ b ∈ blocks /\ tx ∈ txs b /\ tx_hash tx = t
}.

Definition wf_globals (g : globals) : Prop :=
  wf_index (prev_hash_to_blocks g) (curr_hash_to_prev_hash g)
           (txid_to_prev_hash g).

Lemma wf_globals_initial : wf_globals initial_globals.
Proof.
  split; cbn; intros *; rewrite lookup_empty; discriminate.
Qed.

Lemma record_txids_lookup_Some (prev_hash : string) (txs : list Transaction)
    (m : gmap string string) (t p : string) :
  record_txids prev_hash txs m !! t = Some p ->
  (p = prev_hash /\ exists tx, tx ∈ txs /\ tx_hash tx = t) \/ m !! t = Some p.
Proof.
  revert m. induction txs as [|tx txs IH]; intros m Hp; [right; exact Hp|].
  cbn [record_txids fold_left] in Hp.
  destruct (IH _ Hp) as [(-> & tx' & Hin & Ht)|Hm].
  - left. split; [reflexivity|]. exists tx'. split; [right; exact Hin|exact Ht].
  - destruct (decide (tx_hash tx = t)) as [Heq|Hne].
    + rewrite Heq, lookup_insert_eq in Hm. injection Hm as <-.
      left. split; [reflexivity|]. exists tx. split; [left|exact Heq].
    + rewrite lookup_insert_ne in Hm by exact Hne. right. exact Hm.
Qed.

Lemma children_of_insert_elem (m : gmap string (list Block))
    (prev k : string) (b b0 : Block) (blocks : list Block) :
  m !! k = Some blocks -> b0 ∈ blocks ->
  exists blocks',
    <[prev := children_of m prev ++ [b]]> m !! k = Some blocks' /\
    b0 ∈ blocks'.
Proof.
  intros Hk Hin. destruct (decide (prev = k)) as [->|Hne].
  - rewrite lookup_insert_eq. eexists. split; [reflexivity|].
    unfold children_of. rewrite Hk. cbn. apply elem_of_app. left. exact Hin.
  - rewrite lookup_insert_ne by exact Hne. exists blocks. split; assumption.
Qed.

Lemma parse_block_wf (g g' : globals) (block : list byte)
    (nth_byte block_size : Z) :
  0 <= nth_byte ->
  wf_globals g ->
  parse_block g block nth_byte = Ret (block_size, g') ->
  wf_globals g'.
Proof.
  intros Hn [Hb Hc Ht] Hrun.
  destruct (parse_block_Ret _ _ _ _ _ Hn Hrun)
    as (b & h & Hwf & _ & _ & Hh & Hm & Hcm & Htm & _).
  unfold wf_globals. rewrite Hm, Hcm, Htm.
  set (prev := previous_block_header_hash b) in *.
  assert (Hnew : exists blocks',
            <[prev := children_of (prev_hash_to_blocks g) prev ++ [b]]>
              (prev_hash_to_blocks g) !! prev = Some blocks' /\ b ∈ blocks').
  { rewrite lookup_insert_eq. eexists. split; [reflexivity|].
    apply elem_of_app. right. left. }
  split.
  - intros k blocks b0 Hk Hin.
    destruct (decide (prev = k)) as [<-|Hne].
    + rewrite lookup_insert_eq in Hk. injection Hk as <-.
      apply elem_of_app in Hin as [Hin|Hin].
      * unfold children_of in Hin.
        destruct (prev_hash_to_blocks g !! prev) as [old|] eqn:Hold;
          [|apply elem_of_nil in Hin; contradiction].
        exact (Hb _ _ _ Hold Hin).
      * apply list_elem_of_singleton in Hin as ->. split; [exact Hwf|reflexivity].
    + rewrite lookup_insert_ne in Hk by exact Hne. exact (Hb _ _ _ Hk Hin).
  - intros h' p Hp.
    destruct (decide (h = h')) as [<-|Hne].
    + rewrite lookup_insert_eq in Hp. injection Hp as <-.
      destruct Hnew as (blocks' & Hk & Hin). exists blocks', b.
      repeat split; assumption.
    + rewrite lookup_insert_ne in Hp by exact Hne.
      destruct (Hc _ _ Hp) as (blocks & b0 & Hk & Hin & Hh0).
      destruct (children_of_insert_elem _ prev _ b _ _ Hk Hin)
        as (blocks' & Hk' & Hin').
      exists blocks', b0. repeat split; assumption.
  - intros t p Hp.
    apply record_txids_lookup_Some in Hp as [(-> & tx & Hin & Htx)|Hp].
    + destruct Hnew as (blocks' & Hk & Hbin). exists blocks', b, tx.
      repeat split; assumption.
    + destruct (Ht _ _ Hp) as (blocks & b0 & tx & Hk & Hin & Htxin & Htx).
      destruct (children_of_insert_elem _ prev _ b _ _ Hk Hin)
        as (blocks' & Hk' & Hin').
      exists blocks', b0, tx. repeat split; assumption.
Qed.

Lemma load_file_loop_wf (data : list byte) (file_end : Z) (fuel : nat) :
  forall (g g' : globals) (header_start : Z) (offs offsets : list Z),
    0 <= header_start ->
    wf_globals g ->
    load_file_loop fuel data file_end g header_start offs = Ret (g', offsets) ->
    wf_globals g'.
Proof.
  induction fuel as [|fuel IH]; intros g g' hs offs offsets Hhs Hwf Hrun;
    [discriminate|].
  cbn [load_file_loop] in Hrun.
  destruct (parse_block g data hs) as [[block_size g1]| |] eqn:Hparse;
    cbn [mbind result_bind] in Hrun; try discriminate.
  pose proof (parse_block_wf _ _ _ _ _ Hhs Hwf Hparse) as Hwf1.
  destruct (parse_block_Ret _ _ _ _ _ Hhs Hparse)
    as (b & h & _ & _ & _ & _ & _ & _ & _ & _ & _ & _ & Hsize & _).
  assert (Hwf2 : wf_globals (set_block_count g1 (block_count g1 + 1)))
    by exact Hwf1.
  destruct (hs + (4 + block_size + 4) + (4 + 4 + 80) >=? file_end).
  - injection Hrun as <- _. exact Hwf2.
  - eapply IH; [|exact Hwf2|exact Hrun]. lia.
Qed.

Lemma load_file_wf (g g' : globals) (data : list byte) :
  wf_globals g -> load_file g data = Ret g' -> wf_globals g'.
Proof.
  unfold load_file, load_file_trace. intros Hwf Hrun.
  destruct (load_file_loop _ _ _ _ _ _) as [[g1 offsets]| |] eqn:Hloop;
    cbn [mbind result_bind] in Hrun; try discriminate.
  injection Hrun as <-.
  eapply load_file_loop_wf; [|exact Hwf|exact Hloop]. lia.
Qed.

Lemma load_blockchain_wf (files : list (list byte)) :
  forall g g' : globals,
    wf_globals g -> load_blockchain g files = Ret g' -> wf_globals g'.
Proof.
  induction files as [|data files IH]; intros g g' Hwf Hrun.
  - injection Hrun as <-. exact Hwf.
  - cbn [load_blockchain] in Hrun.
    destruct (load_file g data) as [g1| |] eqn:Hfile;
      cbn [mbind result_bind] in Hrun; try discriminate.
    eapply IH; [|exact Hrun]. eapply load_file_wf; eassumption.
Qed.

(** *** Resolution keeps the invariant *)

(** A block with another flag and another height. *)
Definition retouch (b : Block) (flag : bool) (h : Z) : Block :=
  {| version := version b;
     previous_block_header_hash := previous_block_header_hash b;
     merkle_root_hash := merkle_root_hash b;
     start_time := start_time b;
     nBits := nBits b;
     nonce := nonce b;
     main_chain := flag;
     height := h;
     tx_count := tx_count b;
     txs := txs b |}.

(** What the resolver may do to a stored block: set the flag, and set a
    height that is not negative. *)
Definition touched (b0 b : Block) : Prop :=
  exists flag h, (h = height b0 \/ 0 <= h) /\ b = retouch b0 flag h.

Lemma touched_refl (b : Block) : touched b b.
Proof.
  exists (main_chain b), (height b). split; [left; reflexivity|].
  destruct b; reflexivity.
Qed.

Lemma touched_trans (b0 b1 b2 : Block) :
  touched b0 b1 -> touched b1 b2 -> touched b0 b2.
Proof.
  intros (f1 & h1 & H1 & ->) (f2 & h2 & H2 & ->).
  exists f2, h2. split; [|reflexivity].
  cbn [height retouch] in H2. destruct H2 as [->|H2]; [exact H1|right; exact H2].
Qed.

Lemma height_set_touched (b0 b : Block) : height_set b0 b -> touched b0 b.
Proof.
  intros [->|(h & Hh & ->)]; [apply touched_refl|].
  exists (main_chain b0), h. split; [right; exact Hh|reflexivity].
Qed.

Lemma set_main_chain_touched (b : Block) : touched b (set_main_chain b).
Proof.
  exists true, (height b). split; [left; reflexivity|reflexivity].
Qed.

Lemma touched_wf (b0 b : Block) :
  touched b0 b ->
  get_curr_hash_little b = get_curr_hash_little b0 /\
  previous_block_header_hash b = previous_block_header_hash b0 /\
  txs b = txs b0 /\ tx_count b = tx_count b0 /\
  (wf_block b0 -> wf_block b).
Proof.
  intros (flag & h & Hh & ->).
  do 4 (split; [reflexivity|]).
  intros (Hfields & Hcount & Hpos & Htxs & Hroot & Hheight).
  unfold wf_block. cbn [retouch version previous_block_header_hash
    merkle_root_hash start_time nBits nonce tx_count txs height].
  do 5 (split; [assumption|]). destruct Hh as [->|Hh]; assumption.
Qed.

Lemma blocks_related_refl (m : gmap string (list Block)) :
  blocks_related touched m m.
Proof.
  intros k. destruct (m !! k) as [bs|]; constructor.
  apply Forall2_same_length_lookup_2; [reflexivity|].
  intros i b b' Hb Hb'.
  assert (b = b') as -> by congruence. apply touched_refl.
Qed.

Lemma Forall2_touched_trans (l0 l1 l2 : list Block) :
  Forall2 touched l0 l1 -> Forall2 touched l1 l2 -> Forall2 touched l0 l2.
Proof.
  intros H1. revert l2.
  induction H1 as [|b0 b1 l0 l1 Hb _ IH]; intros l2 H2;
    inversion H2 as [|? b2 ? l2' Hb' Hrest]; subst; constructor.
  - eapply touched_trans; eassumption.
  - apply IH. exact Hrest.
Qed.

Lemma blocks_related_trans (m0 m1 m2 : gmap string (list Block)) :
  blocks_related touched m0 m1 ->
  blocks_related touched m1 m2 ->
  blocks_related touched m0 m2.
Proof.
  intros H1 H2 k. specialize (H1 k). specialize (H2 k).
  destruct H1 as [l0 l1 Hl|]; inversion H2 as [? l2 Hl'|]; subst;
    constructor.
  eapply Forall2_touched_trans; eassumption.
Qed.

Lemma blocks_related_insert (m : gmap string (list Block)) (k : string)
    (blocks blocks' : list Block) :
  m !! k = Some blocks ->
  Forall2 touched blocks blocks' ->
  blocks_related touched m (<[k := blocks']> m).
Proof.
  intros Hk Hrel k'. destruct (decide (k = k')) as [<-|Hne].
  - rewrite lookup_insert_eq, Hk. constructor. exact Hrel.
  - rewrite lookup_insert_ne by exact Hne. apply blocks_related_refl.
Qed.

Lemma blocks_related_elem (m0 m : gmap string (list Block)) (k : string)
    (blocks0 : list Block) (b0 : Block) :
  blocks_related touched m0 m ->
  m0 !! k = Some blocks0 -> b0 ∈ blocks0 ->
  exists blocks b, m !! k = Some blocks /\ b ∈ blocks /\ touched b0 b.
Proof.
  intros Hrel Hk Hin. specialize (Hrel k). rewrite Hk in Hrel.
  inversion Hrel as [? blocks Hl|]; subst.
  apply list_elem_of_lookup in Hin as [i Hi].
  destruct (Forall2_lookup_l _ _ _ _ _ Hl Hi) as (b & Hb & Ht).
  exists blocks, b. split; [reflexivity|]. split; [|exact Ht].
  apply list_elem_of_lookup. exists i. exact Hb.
Qed.

Lemma blocks_related_wf (m0 m : gmap string (list Block))
    (c2p t2p : gmap string string) :
  blocks_related touched m0 m ->
  wf_index m0 c2p t2p -> wf_index m c2p t2p.
Proof.
  intros Hrel [Hb Hc Ht]. split.
  - intros k blocks b Hk Hin. pose proof (Hrel k) as Hrk. rewrite Hk in Hrk.
    inversion Hrk as [blocks0 ? Hl Hk0|]; subst.
    apply list_elem_of_lookup in Hin as [i Hi].
    destruct (Forall2_lookup_r _ _ _ _ _ Hl Hi) as (b0 & Hb0 & Ht0).
    assert (Hin0 : b0 ∈ blocks0) by (apply list_elem_of_lookup; eauto).
    destruct (Hb k blocks0 b0 (eq_sym Hk0) Hin0) as [Hwf Hprev].
    destruct (touched_wf _ _ Ht0) as (_ & Hp & _ & _ & Hwf').
    split; [exact (Hwf' Hwf)|congruence].
  - intros h p Hp. destruct (Hc _ _ Hp) as (blocks0 & b0 & Hk & Hin & Hh).
    destruct (blocks_related_elem _ _ _ _ _ Hrel Hk Hin)
      as (blocks & b & Hk' & Hin' & Ht0).
    exists blocks, b. repeat split; try assumption.
    destruct (touched_wf _ _ Ht0) as (Hhash & _). congruence.
  - intros t p Hp.
    destruct (Ht _ _ Hp) as (blocks0 & b0 & tx & Hk & Hin & Htx & Hh).
    destruct (blocks_related_elem _ _ _ _ _ Hrel Hk Hin)
      as (blocks & b & Hk' & Hin' & Ht0).
    exists blocks, b, tx. repeat split; try assumption.
    destruct (touched_wf _ _ Ht0) as (_ & _ & Htxs & _). congruence.
Qed.

Lemma mark_first_touched (blocks : list Block) (curr_hash : string) :
  forall blocks', mark_first blocks curr_hash = Ret blocks' ->
                  Forall2 touched blocks blocks'.
Proof.
  induction blocks as [|b rest IH]; intros blocks' Hrun.
  - injection Hrun as <-. constructor.
  - cbn [mark_first] in Hrun.
    destruct (get_curr_hash_little b) as [h| |];
      cbn [mbind result_bind] in Hrun; try discriminate.
    destruct (decide (h = curr_hash)).
    + injection Hrun as <-. constructor; [apply set_main_chain_touched|].
      apply Forall2_same_length_lookup_2; [reflexivity|].
      intros i x y Hx Hy. assert (x = y) as -> by congruence.
      apply touched_refl.
    + destruct (mark_first rest curr_hash) as [rest'| |];
        cbn [mbind result_bind] in Hrun; try discriminate.
      injection Hrun as <-. constructor; [apply touched_refl|].
      apply IH. reflexivity.
Qed.

Lemma mark_walk_related (c2p : gmap string string) (fuel : nat) :
  forall (m m' : gmap string (list Block)) (curr_hash prev_hash : string),
    mark_walk fuel c2p m curr_hash prev_hash = Ret m' ->
    blocks_related touched m m'.
Proof.
  induction fuel as [|fuel IH]; intros m m' curr prev Hrun; [discriminate|].
  cbn [mark_walk] in Hrun.
  destruct (decide (prev <> source_hash)).
  - unfold getitem in Hrun.
    destruct (m !! prev) as [blocks|] eqn:Hm;
      cbn [mbind result_bind] in Hrun; try discriminate.
    destruct (mark_first blocks curr) as [blocks'| |] eqn:Hmark;
      cbn [mbind result_bind] in Hrun; try discriminate.
    destruct (c2p !! prev) as [prev'|];
      cbn [mbind result_bind] in Hrun; try discriminate.
    eapply blocks_related_trans; [|eapply IH; exact Hrun].
    eapply blocks_related_insert; [exact Hm|].
    eapply mark_first_touched. exact Hmark.
  - injection Hrun as <-. apply blocks_related_refl.
Qed.

Lemma bfs_run_related (m m' : gmap string (list Block)) (s : bfs_state) :
  bfs_run m = Ret (m', s) -> blocks_related touched m m'.
Proof.
  intros Hrun. destruct (bfs_run_inv _ _ _ Hrun) as [Hinv _].
  intros k. pose proof (inv_related _ _ _ Hinv k) as Hk.
  destruct Hk as [l0 l1 Hl|]; constructor.
  eapply Forall2_impl; [exact Hl|]. apply height_set_touched.
Qed.

(** [resolve] changes flags and heights only. *)
Lemma resolve_related (g g' : globals) :
  resolve g = Ret g' ->
  blocks_related touched (prev_hash_to_blocks g) (prev_hash_to_blocks g') /\
  curr_hash_to_prev_hash g' = curr_hash_to_prev_hash g /\
  txid_to_prev_hash g' = txid_to_prev_hash g.
Proof.
  unfold resolve, compute_distances_bfs. intros Hrun.
  destruct (bfs_run (prev_hash_to_blocks g)) as [[m s]| |] eqn:Hbfs;
    cbn [mbind result_bind] in Hrun; try discriminate.
  cbn [latest_block_little set_latest curr_hash_to_prev_hash
       prev_hash_to_blocks set_blocks] in Hrun.
  destruct (reverse_hex (max_hash s)) as [latest| |];
    cbn [mbind result_bind] in Hrun; try discriminate.
  unfold getitem, index in Hrun.
  destruct (curr_hash_to_prev_hash g !! max_hash s) as [prev|];
    cbn [mbind result_bind] in Hrun; try discriminate.
  destruct (mark_walk _ _ m (max_hash s) prev) as [m1| |] eqn:Hwalk;
    cbn [mbind result_bind] in Hrun; try discriminate.
  destruct (m1 !! source_hash) as [blocks|] eqn:Hsrc;
    cbn [mbind result_bind] in Hrun; try discriminate.
  destruct (blocks !! 0%nat) as [block0|] eqn:Hb0;
    cbn [mbind result_bind] in Hrun; try discriminate.
  injection Hrun as <-.
  cbn [prev_hash_to_blocks curr_hash_to_prev_hash txid_to_prev_hash
       set_blocks set_latest].
  split; [|split; reflexivity].
  eapply blocks_related_trans; [eapply bfs_run_related; exact Hbfs|].
  eapply blocks_related_trans; [eapply mark_walk_related; exact Hwalk|].
  eapply blocks_related_insert; [exact Hsrc|].
  destruct blocks as [|b0 rest]; [discriminate|]. injection Hb0 as ->.
  cbn. constructor; [apply set_main_chain_touched|].
  apply Forall2_same_length_lookup_2; [reflexivity|].
  intros i x y Hx Hy. assert (x = y) as -> by congruence. apply touched_refl.
Qed.

Lemma resolve_wf (g g' : globals) :
  wf_globals g -> resolve g = Ret g' -> wf_globals g'.
Proof.
  intros Hwf Hrun. destruct (resolve_related _ _ Hrun) as (Hrel & Hc & Ht).
  unfold wf_globals. rewrite Hc, Ht.
  eapply blocks_related_wf; [exact Hrel|exact Hwf].
Qed.

(** The invariant holds of what [setup] returns, whatever the files. *)
Lemma setup_wf (files : list (list byte)) (g : globals) :
  setup files = Ret g -> wf_globals g.
Proof.
  unfold setup. intros Hrun.
  destruct (load_blockchain initial_globals files) as [g0| |] eqn:Hload;
    cbn [mbind result_bind] in Hrun; try discriminate.
  eapply resolve_wf; [|exact Hrun].
  eapply load_blockchain_wf; [apply wf_globals_initial|exact Hload].
Qed.

(** ** The query accessors *)

Lemma reverse_hex_hexlify (bs : list byte) :
  reverse_hex (hexlify bs) = Ret (hexlify (rev bs)).
Proof.
  unfold reverse_hex. rewrite decode_hex_hexlify. reflexivity.
Qed.

Lemma hex_le_int_hexlify (bs : list byte) :
  bs <> [] -> hex_le_int (hexlify bs) = Ret (le_to_Z bs).
Proof.
  intros Hne. unfold hex_le_int. rewrite decode_hex_hexlify.
  cbn [mbind result_bind]. destruct bs; [congruence|reflexivity].
Qed.

Lemma hex_le_int_nonneg (s : string) (z : Z) :
  hex_le_int s = Ret z -> 0 <= z.
Proof.
  unfold hex_le_int, decode_hex.
  destruct (unhexlify s) as [bs|]; cbn [mbind result_bind]; [|discriminate].
  destruct bs as [|b bs]; [discriminate|]. intros Heq. injection Heq as <-.
  apply (le_to_Z_range (b :: bs)).
Qed.

(** The amount and the displayed script of an output of the decoder. *)
Definition satoshi_of (o : OutputTransaction) : Z :=
  le_to_Z (unhex (otx_satoshi_amount o)).

Definition script_display (o : OutputTransaction) : string :=
  hexlify (rev (unhex (otx_script o))).

Lemma unhex_hexlify (bs : list byte) : unhex (hexlify bs) = bs.
Proof. unfold unhex. rewrite unhexlify_hexlify. reflexivity. Qed.

Lemma wf_output_reads (o : OutputTransaction) :
  wf_output o ->
  get_satoshi_int o = Ret (satoshi_of o) /\
  0 <= satoshi_of o < 2 ^ 64 /\
  otx_get_script_big o = Ret (script_display o).
Proof.
  intros (amount & script & Ha & Hlen & Hs).
  unfold get_satoshi_int, otx_get_script_big, satoshi_of, script_display.
  rewrite Ha, Hs, !unhex_hexlify, reverse_hex_hexlify.
  split; [|split; [|reflexivity]].
  - apply hex_le_int_hexlify. intros ->. discriminate Hlen.
  - pose proof (le_to_Z_range amount) as Hr. rewrite Hlen in Hr.
    exact Hr.
Qed.

(** The total that the accessors report for a list of outputs: the sum,
    from 0.0 and in the order of the list, of the quotients. *)
Definition total_btc (outs : list OutputTransaction) (from : float) : float :=
  fold_left (fun acc o => (acc + btc_of_satoshi (satoshi_of o))%float)
            outs from.

Lemma sum_btc_spec (outs : list OutputTransaction) (n : nat) :
  forall (j : nat) (acc : float),
    Forall wf_output outs ->
    (j + n = length outs)%nat ->
    sum_btc outs n j acc = Ret (total_btc (drop j outs) acc).
Proof.
  induction n as [|n IH]; intros j acc Hwf Hlen.
  - cbn [sum_btc]. rewrite drop_ge by lia. reflexivity.
  - cbn [sum_btc]. unfold index.
    destruct (lookup_lt_is_Some_2 outs j) as [o Ho]; [lia|].
    rewrite Ho. cbn [mbind result_bind].
    assert (Hin : o ∈ outs) by (apply list_elem_of_lookup; eauto).
    destruct (wf_output_reads o) as (Hsat & _).
    { apply (proj1 (Forall_forall _ _) Hwf). exact Hin. }
    rewrite Hsat. cbn [mbind result_bind].
    rewrite IH by (assumption || lia).
    rewrite (drop_S _ _ _ Ho). reflexivity.
Qed.

Lemma parsed_outputs_spec (outs : list OutputTransaction) (n : nat) :
  forall (j : nat) (acc : list (float * string)),
    Forall wf_output outs ->
    (j + n = length outs)%nat ->
    parsed_outputs outs n j acc
    = Ret (acc ++ map (fun o => (btc_of_satoshi (satoshi_of o),
                                 script_display o)) (drop j outs)).
Proof.
  induction n as [|n IH]; intros j acc Hwf Hlen.
  - cbn [parsed_outputs]. rewrite drop_ge by lia. cbn. rewrite app_nil_r.
    reflexivity.
  - cbn [parsed_outputs]. unfold index.
    destruct (lookup_lt_is_Some_2 outs j) as [o Ho]; [lia|].
    rewrite Ho. cbn [mbind result_bind].
    assert (Hin : o ∈ outs) by (apply list_elem_of_lookup; eauto).
    destruct (wf_output_reads o) as (Hsat & _ & Hscr).
    { apply (proj1 (Forall_forall _ _) Hwf). exact Hin. }
    rewrite Hsat. cbn [mbind result_bind]. rewrite Hscr.
    cbn [mbind result_bind].
    rewrite IH by (assumption || lia).
    rewrite (drop_S _ _ _ Ho). cbn [map]. rewrite <- app_assoc. reflexivity.
Qed.

Lemma find_block_Some (blocks : list Block) (h : string) (b : Block) :
  find_block blocks h = Ret (Some b) ->
  b ∈ blocks /\ get_curr_hash_little b = Ret h.
Proof.
  induction blocks as [|b0 rest IH]; cbn [find_block]; [discriminate|].
  destruct (get_curr_hash_little b0) as [c| |] eqn:Hc;
    cbn [mbind result_bind]; try discriminate.
  destruct (decide (c = h)) as [->|].
  - intros Heq. injection Heq as <-. split; [left|exact Hc].
  - intros Hrest. destruct (IH Hrest) as [Hin Hh]. split; [right|]; assumption.
Qed.

(** A hash that some block of the list has is found, unless the hash of an
    earlier block cannot be computed. *)
Lemma find_block_found (blocks : list Block) (h : string) (r : option Block) :
  (exists b, b ∈ blocks /\ get_curr_hash_little b = Ret h) ->
  find_block blocks h = Ret r ->
  exists b, r = Some b.
Proof.
  induction blocks as [|b0 rest IH]; intros (b & Hin & Hh).
  - apply elem_of_nil in Hin. contradiction.
  - cbn [find_block].
    destruct (get_curr_hash_little b0) as [c| |] eqn:Hc;
      cbn [mbind result_bind]; try discriminate.
    destruct (decide (c = h)) as [->|Hne].
    + intros Heq. injection Heq as <-. eexists; reflexivity.
    + apply elem_of_cons in Hin as [->|Hin]; [congruence|].
      apply IH. exists b. split; assumption.
Qed.

Lemma find_block_wf (blocks : list Block) (h : string) :
  (forall b, b ∈ blocks -> wf_block b) ->
  exists r, find_block blocks h = Ret r.
Proof.
  induction blocks as [|b0 rest IH]; intros Hwf; [eexists; reflexivity|].
  cbn [find_block].
  destruct (wf_block_hash b0) as [c Hc]; [apply Hwf; left|].
  rewrite Hc. cbn [mbind result_bind].
  destruct (decide (c = h)); [eexists; reflexivity|].
  apply IH. intros b Hb. apply Hwf. right. exact Hb.
Qed.

Lemma find_tx_from_spec (txs : list Transaction) (h : string) (n : nat) :
  forall i : nat,
    (i + n = length txs)%nat ->
    exists r,
      find_tx_from txs n i h = Ret r /\
      match r with
      | Some tx => tx ∈ txs /\ tx_hash tx = h
      | None => forall tx, tx ∈ drop i txs -> tx_hash tx <> h
      end.
Proof.
  induction n as [|n IH]; intros i Hlen.
  - exists None. split; [reflexivity|]. rewrite drop_ge by lia.
    intros tx Hin. apply elem_of_nil in Hin. contradiction.
  - cbn [find_tx_from]. unfold index.
    destruct (lookup_lt_is_Some_2 txs i) as [tx Htx]; [lia|].
    rewrite Htx. cbn [mbind result_bind]. unfold get_hash_little.
    destruct (decide (tx_hash tx = h)) as [Heq|Hne].
    + exists (Some tx). split; [reflexivity|].
      split; [apply list_elem_of_lookup; eauto|exact Heq].
    + destruct (IH (S i)) as (r & Hr & Hspec); [lia|].
      exists r. split; [exact Hr|]. destruct r as [tx'|]; [exact Hspec|].
      rewrite (drop_S _ _ _ Htx). intros tx' [->|Hin]%elem_of_cons;
        [exact Hne|apply Hspec; exact Hin].
Qed.

Lemma find_tx_found (blocks : list Block) (h : string) :
  (forall b, b ∈ blocks -> wf_block b) ->
  (exists b tx, b ∈ blocks /\ tx ∈ txs b /\ tx_hash tx = h) ->
  exists b tx,
    find_tx blocks h = Ret (Some (b, tx)) /\
    b ∈ blocks /\ tx ∈ txs b /\ tx_hash tx = h.
Proof.
  induction blocks as [|b0 rest IH]; intros Hwf (b & tx & Hin & Htx & Hh).
  - apply elem_of_nil in Hin. contradiction.
  - cbn [find_tx].
    destruct (Hwf b0) as (_ & Hcount & _); [left|].
    destruct (find_tx_from_spec (txs b0) h (Z.to_nat (tx_count b0)) 0)
      as (r & Hr & Hspec); [lia|].
    rewrite Hr. cbn [mbind result_bind]. destruct r as [tx0|].
    + exists b0, tx0. destruct Hspec as [Hin0 Hh0].
      split; [reflexivity|]. split; [left|]. split; assumption.
    + rewrite drop_0 in Hspec.
      apply elem_of_cons in Hin as [->|Hin]; [exfalso; exact (Hspec tx Htx Hh)|].
      destruct IH as (b1 & tx1 & Hf & Hin1 & Htx1 & Hh1).
      { intros b' Hb'. apply Hwf. right. exact Hb'. }
      { exists b, tx. repeat split; assumption. }
      exists b1, tx1. split; [exact Hf|]. split; [right; exact Hin1|].
      split; assumption.
Qed.

(** The txid of a transaction of the decoder in display order. *)
Definition txid_display (t : Transaction) : string :=
  hexlify (rev (unhex (tx_hash t))).

Lemma wf_tx_reads (t : Transaction) :
  wf_tx t ->
  get_hash_big t = Ret (txid_display t) /\
  output_tx_count t = Z.of_nat (length (output_txs t)) /\
  Forall wf_output (output_txs t) /\
  input_tx_count t = Z.of_nat (length (input_txs t)) /\
  exists ver, tx_get_version_int t = Ret ver /\ 0 <= ver.
Proof.
  intros ((raw & Hraw) & (v & Hv & Hvl) & Hic & _ & Hoc & Hout & _).
  unfold get_hash_big, txid_display, tx_get_version_int.
  rewrite Hraw, unhex_hexlify, reverse_hex_hexlify, Hv.
  repeat (split; [assumption || reflexivity|]).
  exists (le_to_Z v). split; [|apply le_to_Z_range].
  apply hex_le_int_hexlify. intros ->. discriminate Hvl.
Qed.

Lemma block_tx_values_spec (txs : list Transaction) (n : nat) :
  forall (i : nat) (acc : list (string * float)),
    Forall wf_tx txs ->
    (i + n = length txs)%nat ->
    block_tx_values txs n i acc
    = Ret (acc ++ map (fun t => (txid_display t, total_btc (output_txs t) 0))
                      (drop i txs)).
Proof.
  induction n as [|n IH]; intros i acc Hwf Hlen.
  - cbn [block_tx_values]. rewrite drop_ge by lia. cbn. rewrite app_nil_r.
    reflexivity.
  - cbn [block_tx_values]. unfold index.
    destruct (lookup_lt_is_Some_2 txs i) as [t Ht]; [lia|].
    rewrite Ht. cbn [mbind result_bind].
    assert (Hin : t ∈ txs) by (apply list_elem_of_lookup; eauto).
    destruct (wf_tx_reads t) as (Hid & Hoc & Hout & _).
    { apply (proj1 (Forall_forall _ _) Hwf). exact Hin. }
    rewrite Hid. cbn [mbind result_bind].
    rewrite Hoc, Nat2Z.id, sum_btc_spec by (assumption || lia).
    cbn [mbind result_bind]. rewrite drop_0.
    rewrite IH by (assumption || lia).
    rewrite (drop_S _ _ _ Ht). cbn [map]. rewrite <- app_assoc. reflexivity.
Qed.

(** A known txid leads to a stored transaction of the decoder. *)
Lemma known_txid_found (g : globals) (t prev : string) :
  wf_globals g ->
  txid_to_prev_hash g !! t = Some prev ->
  exists blocks block tx,
    prev_hash_to_blocks g !! prev = Some blocks /\
    find_tx blocks t = Ret (Some (block, tx)) /\
    block ∈ blocks /\ tx ∈ txs block /\ tx_hash tx = t /\
    wf_block block /\ wf_tx tx.
Proof.
  intros [Hb _ Ht] Hknown.
  destruct (Ht _ _ Hknown) as (blocks & b & tx & Hk & Hin & Htx & Hh).
  destruct (find_tx_found blocks t) as (b1 & tx1 & Hf & Hin1 & Htx1 & Hh1).
  { intros b' Hb'. apply (Hb _ _ _ Hk Hb'). }
  { exists b, tx. repeat split; assumption. }
  exists blocks, b1, tx1. repeat (split; [assumption|]).
  destruct (Hb _ _ _ Hk Hin1) as [Hwf1 _]. split; [exact Hwf1|].
  destruct Hwf1 as (_ & _ & _ & Htxs & _).
  apply (proj1 (Forall_forall _ _) Htxs). exact Htx1.
Qed.

(** A known header hash leads to a stored block of the decoder. *)
Lemma known_block_found (g : globals) (h prev : string) :
  wf_globals g ->
  curr_hash_to_prev_hash g !! h = Some prev ->
  exists blocks block,
    prev_hash_to_blocks g !! prev = Some blocks /\
    find_block blocks h = Ret (Some block) /\
    block ∈ blocks /\ get_curr_hash_little block = Ret h /\ wf_block block.
Proof.
  intros [Hb Hc _] Hknown.
  destruct (Hc _ _ Hknown) as (blocks & b & Hk & Hin & Hh).
  destruct (find_block_wf blocks h) as [r Hr].
  { intros b' Hb'. apply (Hb _ _ _ Hk Hb'). }
  destruct (find_block_found blocks h r) as [b1 ->]; [eauto|exact Hr|].
  destruct (find_block_Some _ _ _ Hr) as [Hin1 Hh1].
  exists blocks, b1. repeat (split; [assumption|]).
  apply (Hb _ _ _ Hk Hin1).
Qed.

(** C7, as the code has it. On an index that ingestion built, for a known
    txid [get_transaction_outputs] returns the number of outputs and, in
    order, the pairs of the amount divided by 100000000.0 as a binary64
    value (the amount in BTC, not the integer number of satoshi, which is
    below 2^64) and the script in display order. The total that
    [get_transaction_info] and [get_block_transactions] report is the
    binary64 sum, from 0.0 and in the order of the outputs, of these
    quotients. *)
Theorem transaction_outputs_btc (g : globals) (Hwf : wf_globals g) :
  (forall tx_hash_big tx_hash_little prev : string,
     reverse_hex tx_hash_big = Ret tx_hash_little ->
     txid_to_prev_hash g !! tx_hash_little = Some prev ->
     exists blocks block tx,
       prev_hash_to_blocks g !! prev = Some blocks /\
       find_tx blocks tx_hash_little = Ret (Some (block, tx)) /\
       get_hash_little tx = tx_hash_little /\
       Forall (fun o => get_satoshi_int o = Ret (satoshi_of o) /\
                        0 <= satoshi_of o < 2 ^ 64) (output_txs tx) /\
       get_transaction_outputs g tx_hash_big
       = Ret (Z.of_nat (length (output_txs tx)),
              map (fun o => (btc_of_satoshi (satoshi_of o), script_display o))
                  (output_txs tx)) /\
       forall block_hash ver input_count output_count btc_amount lock,
         get_transaction_info g tx_hash_big
         = Ret (block_hash, ver, input_count, output_count, btc_amount, lock) ->
         btc_amount = total_btc (output_txs tx) 0) /\
  (forall block_hash_big block_hash_little prev : string,
     reverse_hex block_hash_big = Ret block_hash_little ->
     curr_hash_to_prev_hash g !! block_hash_little = Some prev ->
     exists blocks block,
       prev_hash_to_blocks g !! prev = Some blocks /\
       find_block blocks block_hash_little = Ret (Some block) /\
       get_block_transactions g block_hash_big
       = Ret (Z.of_nat (length (txs block)),
              map (fun t => (txid_display t, total_btc (output_txs t) 0))
                  (txs block))).
Proof.
  split.
  - intros hb hl prev Hrev Hknown.
    destruct (known_txid_found _ _ _ Hwf Hknown)
      as (blocks & block & tx & Hk & Hf & Hin & Htx & Hh & Hwfb & Hwft).
    destruct (wf_tx_reads _ Hwft) as (_ & Hoc & Hout & _).
    exists blocks, block, tx.
    split; [exact Hk|]. split; [exact Hf|]. split; [exact Hh|].
    split.
    { eapply Forall_impl; [exact Hout|]. intros o Ho.
      destruct (wf_output_reads o Ho) as (? & ? & _). split; assumption. }
    split.
    + unfold get_transaction_outputs. rewrite Hrev. cbn [mbind result_bind].
      rewrite Hknown. unfold getitem. rewrite Hk. cbn [mbind result_bind].
      rewrite Hf. cbn [mbind result_bind].
      rewrite Hoc, Nat2Z.id, parsed_outputs_spec by (assumption || lia).
      cbn [mbind result_bind app]. rewrite drop_0. reflexivity.
    + intros bh ver ic oc btc lk. unfold get_transaction_info.
      rewrite Hrev. cbn [mbind result_bind].
      rewrite Hknown. unfold getitem. rewrite Hk. cbn [mbind result_bind].
      rewrite Hf. cbn [mbind result_bind].
      destruct (tx_get_version_int tx) as [v| |];
        cbn [mbind result_bind]; try discriminate.
      rewrite Hoc, Nat2Z.id, sum_btc_spec by (assumption || lia).
      cbn [mbind result_bind]. rewrite drop_0.
      destruct (get_locktime_int tx) as [l| |];
        cbn [mbind result_bind]; try discriminate.
      destruct (get_curr_hash_big block) as [c| |];
        cbn [mbind result_bind]; try discriminate.
      intros Heq. injection Heq as _ _ _ _ <- _. reflexivity.
  - intros hb hl prev Hrev Hknown.
    destruct (known_block_found _ _ _ Hwf Hknown)
      as (blocks & block & Hk & Hf & Hin & Hh & Hwfb).
    exists blocks, block. split; [exact Hk|]. split; [exact Hf|].
    unfold get_block_transactions. rewrite Hrev. cbn [mbind result_bind].
    rewrite Hknown. unfold getitem. rewrite Hk. cbn [mbind result_bind].
    rewrite Hf. cbn [mbind result_bind].
    destruct Hwfb as (_ & Hcount & _ & Htxs & _).
    rewrite Hcount, Nat2Z.id, block_tx_values_spec by (assumption || lia).
    cbn [mbind result_bind app]. rewrite drop_0. reflexivity.
Qed.

(** *** A transaction of 0.1 and 0.2 BTC *)

(** One input without script, outputs of 10000000 and 20000000 satoshi
    without script. *)
Definition two_output_tx : list byte :=
  unhex "01000000" ++ unhex "01" ++
  replicate 32 x00 ++ unhex "ffffffff" ++ unhex "00" ++ unhex "ffffffff" ++
  unhex "02" ++
  unhex "8096980000000000" ++ unhex "00" ++
  unhex "002d310100000000" ++ unhex "00" ++
  unhex "00000000".

(** The record of a block under the sentinel with this one transaction. *)
Definition two_output_record : list byte :=
  unhex "f9beb4d9" ++ unhex "96000000" ++
  unhex "01000000" ++ replicate 32 x00 ++ double_sha256 two_output_tx ++
  unhex "29ab5f49" ++ unhex "ffff001d" ++ unhex "00000000" ++
  unhex "01" ++ two_output_tx.

Definition two_output_txid_big : string :=
  hexlify (rev (double_sha256 two_output_tx)).

(** The index after [setup], or the empty index when [setup] fails. *)
Definition index_of (files : list (list byte)) : globals :=
  match setup files with
  | Ret g => g
  | _ => initial_globals
  end.

(** C7 as stated, in two parts: the first components of the pairs of
    [get_transaction_outputs] are the amounts in satoshi, and the total of
    [get_transaction_info] is the sum of the amounts divided by
    100000000. *)
Definition outputs_in_satoshi : Prop :=
  forall (g : globals) (tx_hash_big tx_hash_little prev : string)
         (blocks : list Block) (block : Block) (tx : Transaction)
         (n : Z) (pairs : list (float * string)),
    wf_globals g ->
    reverse_hex tx_hash_big = Ret tx_hash_little ->
    txid_to_prev_hash g !! tx_hash_little = Some prev ->
    prev_hash_to_blocks g !! prev = Some blocks ->
    find_tx blocks tx_hash_little = Ret (Some (block, tx)) ->
    get_transaction_outputs g tx_hash_big = Ret (n, pairs) ->
    map fst pairs = map (fun o => Z_to_float (satoshi_of o)) (output_txs tx).

Definition total_of_sum : Prop :=
  forall (g : globals) (tx_hash_big tx_hash_little prev : string)
         (blocks : list Block) (block : Block) (tx : Transaction)
         (block_hash : string) (ver input_count output_count : Z)
         (btc_amount : float) (lock : Z),
    wf_globals g ->
    reverse_hex tx_hash_big = Ret tx_hash_little ->
    txid_to_prev_hash g !! tx_hash_little = Some prev ->
    prev_hash_to_blocks g !! prev = Some blocks ->
    find_tx blocks tx_hash_little = Ret (Some (block, tx)) ->
    get_transaction_info g tx_hash_big
    = Ret (block_hash, ver, input_count, output_count, btc_amount, lock) ->
    btc_amount
    = btc_of_satoshi (fold_right Z.add 0 (map satoshi_of (output_txs tx))).

Lemma setup_index_of (files : list (list byte)) :
  (exists g, setup files = Ret g) -> setup files = Ret (index_of files).
Proof.
  intros [g Hg]. unfold index_of. rewrite Hg. reflexivity.
Qed.

Lemma wf_index_of (files : list (list byte)) : wf_globals (index_of files).
Proof.
  unfold index_of. destruct (setup files) as [g| |] eqn:Hs;
    [exact (setup_wf _ _ Hs)|apply wf_globals_initial..].
Qed.

(** C7, as stated, fails on the block with this transaction: the pairs hold
    0.1 and 0.2, not 10000000 and 20000000, and the total is
    0.30000000000000004, not the quotient of 30000000 by 100000000. *)
Lemma outputs_and_total_counterexample :
  ~ outputs_in_satoshi /\ ~ total_of_sum.
Proof.
  pose (g := index_of [two_output_record]).
  assert (Hwf : wf_globals g) by apply wf_index_of.
  assert (Hfound :
    exists blocks block tx,
      prev_hash_to_blocks g !! source_hash = Some blocks /\
      find_tx blocks (hexlify (double_sha256 two_output_tx))
      = Ret (Some (block, tx)) /\
      map satoshi_of (output_txs tx) = [10000000; 20000000]).
  { vm_compute. eexists _, _, _. repeat split. }
  destruct Hfound as (blocks & block & tx & Hk & Hf & Hsat).
  assert (Hrev : reverse_hex two_output_txid_big
                 = Ret (hexlify (double_sha256 two_output_tx)))
    by (vm_compute; reflexivity).
  assert (Hknown : txid_to_prev_hash g !! hexlify (double_sha256 two_output_tx)
                   = Some source_hash) by (vm_compute; reflexivity).
  split.
  - intros H.
    assert (Hout : get_transaction_outputs g two_output_txid_big
                   = Ret (2, [(btc_of_satoshi 10000000, "");
                              (btc_of_satoshi 20000000, "")]))
      by (vm_compute; reflexivity).
    specialize (H _ _ _ _ _ _ _ _ _ Hwf Hrev Hknown Hk Hf Hout).
    rewrite <- (map_map satoshi_of Z_to_float), Hsat in H.
    apply (f_equal (fun l => match l with
                             | x :: _ => PrimFloat.ltb x 1
                             | [] => false
                             end)) in H.
    vm_compute in H. discriminate H.
  - intros H.
    assert (Hinfo : exists block_hash,
              get_transaction_info g two_output_txid_big
              = Ret (block_hash, 1, 1, 2,
                     (0 + btc_of_satoshi 10000000 + btc_of_satoshi 20000000)%float,
                     0)).
    { eexists. vm_compute. reflexivity. }
    destruct Hinfo as [block_hash Hinfo].
    specialize (H _ _ _ _ _ _ _ _ _ _ _ _ _ Hwf Hrev Hknown Hk Hf Hinfo).
    rewrite Hsat in H.
    apply (f_equal (fun x => PrimFloat.eqb x (btc_of_satoshi 30000000))) in H.
    vm_compute in H. discriminate H.
Qed.





(** The genesis block and the rival of the genesis block in one file: two
    tips of depth 1, the second one off the main chain. *)
Definition tie_file : list byte := genesis_record ++ rival_record.


(** ** The search returns *)















(** ** The resolver on an index of the decoder *)




(** ** The theorems at concrete inputs *)

(** The index after the files are loaded, before [resolve]. *)
Definition loaded (files : list (list byte)) : globals :=
  match load_blockchain initial_globals files with
  | Ret g => g
  | _ => initial_globals
  end.

(** The index after the genesis record alone is decoded. *)
Definition parsed_genesis : globals :=
  match parse_block initial_globals genesis_record 0 with
  | Ret (_, g) => g
  | _ => initial_globals
  end.



(** A record without transactions is not accepted, so an accepted record
    with the count byte 01 has indeed a count of 1 or more. *)
Lemma get_merkle_root_terminates_witness :
  get_merkle_root [hexlify (double_sha256 genesis_tx)] <> Diverge /\
  parse_block initial_globals genesis_record 0 = Ret (285, parsed_genesis) /\
  exists count k,
    parse_var_len_int genesis_record (0 + 88) = Ret (count, k) /\
    1 <= count.
Proof.
  assert (Hrun : parse_block initial_globals genesis_record 0
                 = Ret (285, parsed_genesis)) by (vm_compute; reflexivity).
  assert (Hcount : parse_var_len_int genesis_record (0 + 88) = Ret (1, 1))
    by (vm_compute; reflexivity).
  split; [|split; [exact Hrun|]].
  - apply (proj1 get_merkle_root_terminates). discriminate.
  - exists 1, 1. split; [exact Hcount|].
    apply (proj2 (proj2 (proj2 get_merkle_root_terminates))
             initial_globals parsed_genesis genesis_record 0 285 1 1);
      [lia|exact Hcount|exact Hrun].
Defined.

Lemma parse_var_len_int_spec_witness :
  parse_var_len_int [xfd; x34; x12] 0 = Ret (0x1234, 3) /\
  parse_var_len_int [x2a] 0 = Ret (42, 1).
Proof.
  split.
  - destruct (parse_var_len_int_spec [xfd; x34; x12] 0 xfd) as (_ & H & _);
      [lia|reflexivity|].
    destruct H as [H _]; [reflexivity|simpl; lia|]. exact H.
  - destruct (parse_var_len_int_spec [x2a] 0 x2a) as (H & _);
      [lia|reflexivity|].
    apply H. vm_compute. reflexivity.
Defined.

(** The file of the genesis block, its rival and the child of the rival:
    three records at the offsets 0, 293 and 586. *)
Lemma load_file_offsets_witness :
  load_file_trace initial_globals fork_file
  = Ret (loaded [fork_file], [0; 293; 586]) /\
  record_chain fork_file (Z.of_nat (length fork_file)) 0 [0; 293; 586] /\
  block_count (loaded [fork_file]) = 3.
Proof.
  assert (Hrun : load_file_trace initial_globals fork_file
                 = Ret (loaded [fork_file], [0; 293; 586]))
    by (vm_compute; reflexivity).
  destruct (load_file_offsets _ _ _ _ Hrun) as (Hchain & Hcount & _).
  split; [exact Hrun|]. split; [exact Hchain|exact Hcount].
Defined.

(** The search on the index of this file: three discoveries, the genesis
    block and its rival at the distance 1, the child of the rival at 2. *)
Example bfs_run_fork_file :
  match bfs_run (prev_hash_to_blocks (loaded [fork_file])) with
  | Ret (_, s) => map ev_distance (discovered s) = [1; 1; 2]
  | _ => False
  end.
Proof. vm_compute. reflexivity. Qed.


(** Two tips of depth 1: the first one stored under the sentinel, the
    genesis block, is the tip. *)
Example bfs_run_tie_file :
  match bfs_run (prev_hash_to_blocks (loaded [tie_file])) with
  | Ret (_, s) =>
      map ev_hash (discovered s) = [genesis_hash_little; rival_hash_little] /\
      map ev_distance (discovered s) = [1; 1] /\
      max_hash s = genesis_hash_little
  | _ => False
  end.
Proof. vm_compute. repeat split. Qed.


Lemma transaction_outputs_btc_witness :
  exists blocks block tx,
    prev_hash_to_blocks (index_of [two_output_record]) !! source_hash
    = Some blocks /\
    find_tx blocks (hexlify (double_sha256 two_output_tx))
    = Ret (Some (block, tx)) /\
    get_transaction_outputs (index_of [two_output_record]) two_output_txid_big
    = Ret (Z.of_nat (length (output_txs tx)),
           map (fun o => (btc_of_satoshi (satoshi_of o), script_display o))
               (output_txs tx)).
Proof.
  destruct (proj1 (transaction_outputs_btc (index_of [two_output_record])
                     (wf_index_of _))
              two_output_txid_big (hexlify (double_sha256 two_output_tx))
              source_hash)
    as (blocks & block & tx & Hk & Hf & _ & _ & Hout & _).
  - vm_compute. reflexivity.
  - vm_compute. reflexivity.
  - exists blocks, block, tx. repeat split; assumption.
Defined.


